(** * Scalable Bloom Filter (scalable.go): a shallow embedding

    The series of partitioned filters of [scalable.go] is embedded as a
    record and its methods as computations in a state-and-panic monad.
    The two things the file uses without defining them are parameters of
    the development:
    - the [float64] arithmetic of the Go runtime and [math.Pow]
      (class [Float64Ops]);
    - the partitioned filter the series is built from, with its methods
      (class [PartitionedFilter]), and the package constant [fillRatio].
    Two instances run the methods: exact rationals ([Reference]) and IEEE
    754 binary64 ([Binary64]). *)

From Stdlib Require Import ZArith NArith QArith Qround Reals Qreals Lra List Lia.
From Stdlib Require Strings.Byte.
From Stdlib Require Import Floats.SpecFloat.
From stdpp Require Import base option list.

Local Open Scope Z_scope.

(** ** Data *)

(** Go's [[]byte]. *)
Definition Data : Type := list Byte.byte.

(** Go's [uint], taken at 64 bits; addition wraps around. *)
Definition uint : Type := N.
Definition uint_modulus : N := (2 ^ 64)%N.
Definition uint_add (a b : uint) : uint := ((a + b) mod uint_modulus)%N.

(** The [float64] operations [scalable.go] uses: the literal [0.0],
    [+], [*], [/], [>=], the conversions [float64(n)] and [math.Pow]. *)
Class Float64Ops (F : Type) : Type := {
  f_zero : F;
  f_add : F → F → F;
  f_mul : F → F → F;
  f_div : F → F → F;
  f_ge : F → F → bool;
  float64 : Z → F;
  math_Pow : F → F → F;
}.

(** The methods of [*PartitionedBloomFilter] that [scalable.go] calls.
    [Capacity], [K], [FillRatio], [EstimatedFillRatio] and [Test] are
    queries. [pbf_Add] returns the filter after the insertion: every filter
    of a series is allocated by [addFilter] and reachable from that series
    only, so the mutation through the pointer is a functional update in
    place. *)
Class PartitionedFilter (F PBF : Type) : Type := {
  NewPartitionedBloomFilter : uint → F → PBF;
  pbf_Capacity : PBF → uint;
  pbf_K : PBF → uint;
  pbf_FillRatio : PBF → F;
  pbf_EstimatedFillRatio : PBF → F;
  pbf_Test : PBF → Data → bool;
  pbf_Add : PBF → Data → PBF;
}.

(** [type ScalableBloomFilter struct] *)
Record ScalableBloomFilter (F PBF : Type) : Type := mkSBF {
  filters : list PBF;
  r : F;
  fp : F;
  p : F;
  hint : uint;
}.
Arguments mkSBF {F PBF}.
Arguments filters {F PBF}.
Arguments r {F PBF}.
Arguments fp {F PBF}.
Arguments p {F PBF}.
Arguments hint {F PBF}.

(** [s.filters = fs] *)
Definition set_filters {F PBF} (fs : list PBF) (s : ScalableBloomFilter F PBF)
  : ScalableBloomFilter F PBF :=
  mkSBF fs (r s) (fp s) (p s) (hint s).

(** [l[i]] for a Go [int] index: outside [0 .. len(l)-1] the access panics
    ([None]). *)
Definition index {A} (l : list A) (i : Z) : option A :=
  if decide (0 ≤ i) then l !! Z.to_nat i else None.

(** [len(l)] as a Go [int]. *)
Definition len {A} (l : list A) : Z := Z.of_nat (length l).

(** ** The methods *)

Section Scalable.
Context {F PBF : Type} `{Float64Ops F} `{PartitionedFilter F PBF}.

(** The package constant [fillRatio] (declared outside [scalable.go]). *)
Variable fillRatio : F.

Abbreviation SBF := (ScalableBloomFilter F PBF).

(** A method with a pointer receiver: it reads and writes the series and
    may panic ([None]). *)
Definition M (A : Type) : Type := SBF → option (A * SBF).

#[local] Instance M_ret : MRet M := λ A a s, Some (a, s).
#[local] Instance M_bind : MBind M := λ A B k c s,
  match c s with
  | Some (a, s') => k a s'
  | None => None
  end.

Definition get : M SBF := λ s, Some (s, s).
Definition put (s' : SBF) : M unit := λ _, Some (tt, s').
(** A panicking access lifted into the monad. *)
Definition access {A} (o : option A) : M A := λ s,
  match o with
  | Some a => Some (a, s)
  | None => None
  end.

(** [func (s *ScalableBloomFilter) addFilter()] *)
Definition addFilter : M unit :=
  s ← get;
  let fpRate := f_mul (fp s) (math_Pow (r s) (float64 (len (filters s)))) in
  put (set_filters (filters s ++ [NewPartitionedBloomFilter (hint s) fpRate]) s).

(** [func NewScalableBloomFilter(hint uint, fpRate, r float64)]: the
    struct literal, then [s.addFilter()]. The function has no error
    result and no statement that panics. *)
Definition NewScalableBloomFilter (hint : uint) (fpRate r : F) : option SBF :=
  let s := mkSBF [] r fpRate fillRatio hint in
  snd <$> addFilter s.

(** [func NewDefaultScalableBloomFilter(fpRate float64)]; the literal
    [0.8] is passed in as [f_0_8]. *)
Definition NewDefaultScalableBloomFilter (f_0_8 fpRate : F) : option SBF :=
  NewScalableBloomFilter 10000%N fpRate f_0_8.

(** [func (s *ScalableBloomFilter) Capacity() uint] *)
Definition Capacity (s : SBF) : uint :=
  fold_left (λ capacity bf, uint_add capacity (pbf_Capacity bf)) (filters s) 0%N.

(** [func (s *ScalableBloomFilter) K() uint] *)
Definition K (s : SBF) : option uint :=
  pbf_K <$> index (filters s) 0.

(** [func (s *ScalableBloomFilter) FillRatio() float64] *)
Definition FillRatio (s : SBF) : F :=
  let sum := fold_left (λ sum filter, f_add sum (pbf_FillRatio filter)) (filters s) f_zero in
  f_div sum (float64 (len (filters s))).

(** The loop of [Test]: the first filter that reports the data ends it. *)
Fixpoint Test_loop (fs : list PBF) (data : Data) : bool :=
  match fs with
  | [] => false
  | bf :: rest => if pbf_Test bf data then true else Test_loop rest data
  end.

(** [func (s *ScalableBloomFilter) Test(data []byte) bool] *)
Definition Test (data : Data) : M bool :=
  s ← get;
  mret (Test_loop (filters s) data).

(** [func (s *ScalableBloomFilter) Add(data []byte)] *)
Definition Add (data : Data) : M unit :=
  s ← get;
  let idx := len (filters s) - 1 in
  last ← access (index (filters s) idx);
  idx ← (if f_ge (pbf_EstimatedFillRatio last) (p s)
         then (addFilter;; mret (idx + 1))
         else mret idx);
  s ← get;
  bf ← access (index (filters s) idx);
  put (set_filters (<[Z.to_nat idx := pbf_Add bf data]> (filters s)) s).

(** [func (s *ScalableBloomFilter) TestAndAdd(data []byte) bool] *)
Definition TestAndAdd (data : Data) : M bool :=
  member ← Test data;
  Add data;;
  mret member.

(** [func (s *ScalableBloomFilter) Reset()] *)
Definition Reset : M unit :=
  s ← get;
  put (set_filters [] s);;
  addFilter.

(** ** Calls and reachable states *)

(** A call of one of the four methods that read or write the filters. *)
Inductive op : Type :=
| OpTest (data : Data)
| OpAdd (data : Data)
| OpTestAndAdd (data : Data)
| OpReset.

(** The series after the call, [None] when the call panics. *)
Definition exec (o : op) (s : SBF) : option SBF :=
  match o with
  | OpTest data => snd <$> Test data s
  | OpAdd data => snd <$> Add data s
  | OpTestAndAdd data => snd <$> TestAndAdd data s
  | OpReset => snd <$> Reset s
  end.

(** The series after a sequence of calls, [None] when one of them panics. *)
Fixpoint exec_all (os : list op) (s : SBF) : option SBF :=
  match os with
  | [] => Some s
  | o :: rest => s' ← exec o s; exec_all rest s'
  end.

(** The states a program can see: [NewScalableBloomFilter hint fpRate r]
    followed by any sequence of calls. *)
Inductive reachable (hint0 : uint) (fp0 r0 : F) : SBF → Prop :=
| reachable_new s :
    NewScalableBloomFilter hint0 fp0 r0 = Some s → reachable hint0 fp0 r0 s
| reachable_step s o s' :
    reachable hint0 fp0 r0 s → exec o s = Some s' → reachable hint0 fp0 r0 s'.

(** The rate [addFilter] computes when the series holds [n] filters. *)
Definition target_rate (fp0 r0 : F) (n : nat) : F :=
  f_mul fp0 (math_Pow r0 (float64 (Z.of_nat n))).

(** [bf] was returned by [NewPartitionedBloomFilter hint0 rate] and has
    since received the insertions [ds], oldest first, and nothing else. *)
Definition built_with (hint0 : uint) (rate : F) (ds : list Data) (bf : PBF) : Prop :=
  bf = fold_left pbf_Add ds (NewPartitionedBloomFilter hint0 rate).

End Scalable.

(** ** Contracts, exact readings and invariants *)

Section SpecSide.
Context {F PBF : Type} `{Float64Ops F} `{PartitionedFilter F PBF}.

(** The sum of the values, taken from left to right. *)
Definition f_sum (xs : list F) : F := fold_left f_add xs f_zero.

(** The spec's [fillRatio()]: the sum of the values divided by how many
    there are, every value counting the same. *)
Definition unweighted_mean (xs : list F) : F :=
  f_div (f_sum xs) (float64 (len xs)).

(** The partitioned filter's contract of zero false negatives: a filter
    reports every element it has received since it was built. *)
Definition zero_false_negatives : Prop :=
  ∀ hint0 rate ds bf e,
    built_with hint0 rate ds bf → e ∈ ds → pbf_Test bf e = true.

(** The partitioned filter's contract for a new filter: it reports
    nothing. *)
Definition new_filter_empty : Prop :=
  ∀ hint0 rate e, pbf_Test (NewPartitionedBloomFilter hint0 rate) e = false.

(** Every filter of [fs] was built by [addFilter] at its index, for the
    series made by [NewScalableBloomFilter hint0 fp0 r0]. *)
Definition filters_built (hint0 : uint) (fp0 r0 : F) (fs : list PBF) : Prop :=
  ∀ i bf, fs !! i = Some bf →
    ∃ ds, built_with hint0 (target_rate fp0 r0 i) ds bf.

(** Some filter of [fs] has received [e] since it was built. *)
Definition holds (e : Data) (fs : list PBF) : Prop :=
  ∃ bf hint0 rate ds, bf ∈ fs ∧ built_with hint0 rate ds bf ∧ e ∈ ds.

(** A reading [toR] under which the sum and the quotient of [FillRatio]
    are exact: the sense in which the spec writes an arithmetic mean. *)
Class ExactSum (toR : F → R) : Prop := {
  toR_zero : toR f_zero = 0%R;
  toR_add : ∀ a b, toR (f_add a b) = (toR a + toR b)%R;
  toR_div : ∀ a n, (0 < n)%nat →
    toR (f_div a (float64 (Z.of_nat n))) = (toR a / INR n)%R;
}.

(** The sum of real numbers. *)
Definition Rsum (xs : list R) : R := fold_right Rplus 0%R xs.

End SpecSide.

(** What holds of every series a program can see, made by
    [NewScalableBloomFilter hint0 fp0 r0]: the scalar fields are the
    constructor's, there is a filter, and every filter was built at its
    index. *)
Definition series_inv {F PBF : Type} `{Float64Ops F} `{PartitionedFilter F PBF}
    (fillRatio : F) (hint0 : uint) (fp0 r0 : F) (s : ScalableBloomFilter F PBF) : Prop :=
  r s = r0 ∧ fp s = fp0 ∧ p s = fillRatio ∧ hint s = hint0 ∧
  filters s ≠ [] ∧ filters_built hint0 fp0 r0 (filters s).

(** ** Sequences of calls, capacities and histories *)

Section Histories.
Context {F PBF : Type} `{Float64Ops F} `{PartitionedFilter F PBF}.

(** The sum of the capacities without the wrap-around of [uint]. *)
Definition capacity_total (fs : list PBF) : N :=
  foldr (λ bf acc, (pbf_Capacity bf + acc)%N) 0%N fs.

(** The partitioned filter's contract for its capacity: an insertion does
    not change it. *)
Definition capacity_fixed : Prop :=
  ∀ (bf : PBF) (data : Data), pbf_Capacity (pbf_Add bf data) = pbf_Capacity bf.

(** The calls that run [Add]. *)
Definition is_insert (o : op) : bool :=
  match o with
  | OpAdd _ | OpTestAndAdd _ => true
  | OpTest _ | OpReset => false
  end.

(** The data a series holds after a call, given what it held before: [Add]
    and [TestAndAdd] append theirs, [Reset] forgets everything. *)
Definition log_step (log : list Data) (o : op) : list Data :=
  match o with
  | OpTest _ => log
  | OpAdd data | OpTestAndAdd data => log ++ [data]
  | OpReset => []
  end.

(** The data inserted by [os] since its last [Reset], oldest first. *)
Definition inserted (os : list op) : list Data := fold_left log_step os [].

(** The filters that [addFilter] builds at the indices [0, 1, ...], the one
    at index [i] having received the insertions of the [i]-th list of
    [dss]. *)
Definition replay (hint0 : uint) (fp0 r0 : F) (dss : list (list Data)) : list PBF :=
  imap (λ i ds, fold_left pbf_Add ds
                  (NewPartitionedBloomFilter hint0 (target_rate fp0 r0 i))) dss.

End Histories.

(** ** A reference instance of the parameters

    Exact rational arithmetic for [float64] and, for the partitioned filter,
    a filter that remembers what it was built with and what was inserted.
    The theorems below hold for every instance; this one runs them. *)

Module Reference.

(** [x] to the power [n] by repeated multiplication. *)
Fixpoint Qpow_nat (x : Q) (n : nat) : Q :=
  match n with
  | O => 1%Q
  | S n' => Qmult (Qpow_nat x n') x
  end.

#[export] Instance Q_ops : Float64Ops Q := {|
  f_zero := 0%Q;
  f_add := Qplus;
  f_mul := Qmult;
  f_div := Qdiv;
  f_ge a b := Qle_bool b a;
  float64 z := inject_Z z;
  math_Pow x y := Qpow_nat x (Z.to_nat (Qfloor y));
|}.

#[export] Instance byte_eq_decision : EqDecision Byte.byte := Strings.Byte.byte_eq_dec.

Record ListFilter : Type := mkLF {
  lf_hint : uint;
  lf_rate : Q;
  lf_elems : list Data;
}.

(** The share of the [lf_hint] slots in use. *)
Definition lf_ratio (bf : ListFilter) : Q :=
  Qdiv (inject_Z (len (lf_elems bf))) (inject_Z (Z.of_N (lf_hint bf))).

#[export] Instance ListFilter_ops : PartitionedFilter Q ListFilter := {|
  NewPartitionedBloomFilter hint rate := mkLF hint rate [];
  pbf_Capacity bf := lf_hint bf;
  pbf_K bf := 1%N;
  pbf_FillRatio := lf_ratio;
  pbf_EstimatedFillRatio := lf_ratio;
  pbf_Test bf data := bool_decide (data ∈ lf_elems bf);
  pbf_Add bf data := mkLF (lf_hint bf) (lf_rate bf) (lf_elems bf ++ [data]);
|}.

(** The package constant, [0.5] in the reference instance. *)
Definition fillRatio : Q := (1 # 2)%Q.

Definition x1 : Data := [Byte.x01].
Definition x2 : Data := [Byte.x02].

(** [NewScalableBloomFilter(1, 0.01, 0.8)]. *)
Definition s_new : ScalableBloomFilter Q ListFilter :=
  mkSBF [mkLF 1%N (1 # 100) []] (8 # 10) (1 # 100) fillRatio 1%N.

(** [s_new] after [Add(x1)]: the one filter is full. *)
Definition s_full : ScalableBloomFilter Q ListFilter :=
  mkSBF [mkLF 1%N (1 # 100) [x1]] (8 # 10) (1 # 100) fillRatio 1%N.

(** [s_full] after [Add(x2)]: a second filter was appended. *)
Definition s_two : ScalableBloomFilter Q ListFilter :=
  mkSBF [mkLF 1%N (1 # 100) [x1]; mkLF 1%N (8 # 1000) [x2]]
    (8 # 10) (1 # 100) fillRatio 1%N.

(** [s_two] with its two filters in the other order. *)
Definition s_swapped : ScalableBloomFilter Q ListFilter :=
  mkSBF [mkLF 1%N (8 # 1000) [x2]; mkLF 1%N (1 # 100) [x1]]
    (8 # 10) (1 # 100) fillRatio 1%N.

(** Calls that take [s_new] to [s_two]. *)
Definition calls_two : list op := [OpAdd x1; OpTest x2; OpTestAndAdd x2].

(** Calls made on [s_two]; each of the two insertions appends a filter. *)
Definition calls_more : list op := [OpAdd x1; OpTest x1; OpTestAndAdd x2].

(** The spec's constraints on the arguments of the constructor. *)
Definition valid_parameters (hint : uint) (fpRate r : Q) : Prop :=
  (0 < hint)%N ∧ (0 < fpRate ∧ fpRate < 1)%Q ∧ (0 < r ∧ r < 1)%Q.

End Reference.

(** ** The arithmetic of the program: IEEE 754 binary64

    The instance of the parameters with the [float64] of Go: binary64 with
    rounding to nearest, ties to even, as the Standard Library specifies
    it. The partitioned filter is again one that remembers what was
    inserted. *)

Module Binary64.
Import Reference.

Definition prec : Z := 53.
Definition emax : Z := 1024.

(** [float64(n)]: the binary64 value nearest to the integer [n]. *)
Definition b64_of_Z (z : Z) : spec_float := binary_normalize prec emax z 0 false.

(** The integer that a binary64 value with a non-negative integer value
    stands for. *)
Definition b64_to_Z (y : spec_float) : Z :=
  match y with
  | S754_finite false m e => Z.shiftl (Z.pos m) e
  | _ => 0
  end.

(** [x] to the power [n] by repeated rounded multiplication. It stands for
    [math.Pow] at the integer exponents [addFilter] passes, and agrees with
    the documented cases [Pow(x, 0) = 1] and [Pow(x, 1) = x]. *)
Fixpoint b64_pow_nat (x : spec_float) (n : nat) : spec_float :=
  match n with
  | O => b64_of_Z 1
  | S n' => SFmul prec emax (b64_pow_nat x n') x
  end.

#[export] Instance b64_ops : Float64Ops spec_float := {|
  f_zero := S754_zero false;
  f_add := SFadd prec emax;
  f_mul := SFmul prec emax;
  f_div := SFdiv prec emax;
  f_ge a b := SFleb b a;
  float64 := b64_of_Z;
  math_Pow x y := b64_pow_nat x (Z.to_nat (b64_to_Z y));
|}.

Record B64Filter : Type := mkBF {
  bf_hint : uint;
  bf_rate : spec_float;
  bf_elems : list Data;
}.

(** The share of the [bf_hint] slots in use. *)
Definition bf_ratio (bf : B64Filter) : spec_float :=
  SFdiv prec emax (b64_of_Z (len (bf_elems bf))) (b64_of_Z (Z.of_N (bf_hint bf))).

#[export] Instance B64Filter_ops : PartitionedFilter spec_float B64Filter := {|
  NewPartitionedBloomFilter hint rate := mkBF hint rate [];
  pbf_Capacity bf := bf_hint bf;
  pbf_K bf := 1%N;
  pbf_FillRatio := bf_ratio;
  pbf_EstimatedFillRatio := bf_ratio;
  pbf_Test bf data := bool_decide (data ∈ bf_elems bf);
  pbf_Add bf data := mkBF (bf_hint bf) (bf_rate bf) (bf_elems bf ++ [data]);
|}.

(** The rational number a finite binary64 value stands for. *)
Definition b64_to_Q (y : spec_float) : Q :=
  match y with
  | S754_finite s m e => inject_Z (if s then Z.neg m else Z.pos m) * Qpower 2 e
  | _ => 0
  end.

(** The real number a finite binary64 value stands for. *)
Definition b64_to_R (y : spec_float) : R := Q2R (b64_to_Q y).

(** [0.5], [0.25] and [1]. *)
Definition b64_half : spec_float := S754_finite false 4503599627370496 (-53).
Definition b64_quarter : spec_float := S754_finite false 4503599627370496 (-54).
Definition b64_one : spec_float := S754_finite false 4503599627370496 (-52).

(** The smallest positive binary64 value, [2^-1074]. *)
Definition b64_tiny : spec_float := S754_finite false 1 (-1074).

(** The binary64 value of the literal [0.6]. *)
Definition b64_06 : spec_float := SFdiv prec emax (b64_of_Z 6) (b64_of_Z 10).

(** The package constant, [0.5]. *)
Definition fillRatio64 : spec_float := b64_half.

(** [NewScalableBloomFilter(1, 0.5, 0.5)] after [Add(x1)] and [Add(x2)]:
    the second call appended a filter. *)
Definition s_half_two : ScalableBloomFilter spec_float B64Filter :=
  mkSBF [mkBF 1%N b64_half [x1]; mkBF 1%N b64_quarter [x2]]
    b64_half b64_half fillRatio64 1%N.

(** [NewScalableBloomFilter(1, 2^-1074, 0.6)] after [Add(x1)] and
    [Add(x2)]: the second call appended a filter. *)
Definition s_tiny_two : ScalableBloomFilter spec_float B64Filter :=
  mkSBF [mkBF 1%N b64_tiny [x1]; mkBF 1%N b64_tiny [x2]]
    b64_06 b64_tiny fillRatio64 1%N.

End Binary64.


(** ** What each method does *)

Section Runs.
Context {F PBF : Type} `{Float64Ops F} `{PartitionedFilter F PBF}.
Variable fillRatio : F.

Implicit Types (s : ScalableBloomFilter F PBF) (bf : PBF) (data e : Data).

Lemma index_last {A} (l : list A) (x : A) :
  index (l ++ [x]) (len (l ++ [x]) - 1) = Some x.
Proof.
  unfold index, len. rewrite length_app. simpl.
  case_decide; [|lia].
  replace (Z.to_nat (Z.of_nat (length l + 1) - 1)) with (length l) by lia.
  by rewrite list_lookup_middle.
Qed.

Lemma list_snoc_cases {A} (l : list A) : l = [] ∨ ∃ l' x, l = l' ++ [x].
Proof. induction l using rev_ind; [by left | right; eauto]. Qed.

Lemma index_nil {A} (i : Z) : index (@nil A) i = None.
Proof. unfold index. by case_decide. Qed.

Lemma addFilter_run s :
  addFilter s = Some (tt, set_filters
    (filters s ++ [NewPartitionedBloomFilter (hint s)
                     (target_rate (fp s) (r s) (length (filters s)))]) s).
Proof. reflexivity. Qed.

Lemma New_run hint0 fp0 r0 :
  NewScalableBloomFilter fillRatio hint0 fp0 r0 =
  Some (mkSBF [NewPartitionedBloomFilter hint0 (target_rate fp0 r0 0)]
          r0 fp0 fillRatio hint0).
Proof. reflexivity. Qed.

Lemma Reset_run s :
  Reset s = Some (tt, set_filters
    [NewPartitionedBloomFilter (hint s) (target_rate (fp s) (r s) 0)] s).
Proof. reflexivity. Qed.

Lemma Test_run data s : Test data s = Some (Test_loop (filters s) data, s).
Proof. reflexivity. Qed.

Lemma Add_empty data s : filters s = [] → Add data s = None.
Proof.
  intros Hnil. unfold Add, mbind, M_bind, get. simpl. rewrite Hnil.
  by rewrite index_nil.
Qed.

(** The last filter is full: a new filter is appended and receives the
    data. *)
Lemma Add_grow data s fs last :
  filters s = fs ++ [last] →
  f_ge (pbf_EstimatedFillRatio last) (p s) = true →
  Add data s = Some (tt, set_filters
    (filters s ++ [pbf_Add (NewPartitionedBloomFilter (hint s)
                     (target_rate (fp s) (r s) (length (filters s)))) data]) s).
Proof.
  intros Hfs Hge. unfold Add, mbind, M_bind, get. simpl.
  rewrite Hfs, index_last. simpl. rewrite Hge. simpl.
  rewrite <- Hfs.
  set (new := NewPartitionedBloomFilter _ _).
  replace (len (filters s) - 1 + 1) with (len (filters s ++ [new]) - 1)
    by (unfold len; rewrite length_app; simpl; lia).
  rewrite index_last. simpl. unfold put, set_filters. simpl.
  do 3 f_equal. unfold len. rewrite length_app. simpl.
  replace (Z.to_nat (Z.of_nat (length (filters s) + 1) - 1))
    with (length (filters s) + 0)%nat by lia.
  by rewrite insert_app_r.
Qed.

(** The last filter is not full: it receives the data. *)
Lemma Add_keep data s fs last :
  filters s = fs ++ [last] →
  f_ge (pbf_EstimatedFillRatio last) (p s) = false →
  Add data s = Some (tt, set_filters (fs ++ [pbf_Add last data]) s).
Proof.
  intros Hfs Hge. unfold Add, mbind, M_bind, get. simpl.
  rewrite Hfs, index_last. simpl. rewrite Hge. simpl.
  rewrite Hfs, index_last. simpl. unfold put, set_filters. simpl.
  do 3 f_equal. unfold len. rewrite length_app. simpl.
  replace (Z.to_nat (Z.of_nat (length fs + 1) - 1))
    with (length fs + 0)%nat by lia.
  by rewrite insert_app_r.
Qed.

Lemma TestAndAdd_run data s :
  TestAndAdd data s =
  (λ x, (Test_loop (filters s) data, snd x)) <$> Add data s.
Proof.
  unfold TestAndAdd, mbind, M_bind. rewrite Test_run.
  destruct (Add data s) as [[[] s']|]; reflexivity.
Qed.

(** *** Filters and their histories *)

Lemma built_new hint0 rate :
  built_with hint0 rate [] (NewPartitionedBloomFilter hint0 rate).
Proof. reflexivity. Qed.

Lemma built_add hint0 rate ds bf data :
  built_with hint0 rate ds bf →
  built_with hint0 rate (ds ++ [data]) (pbf_Add bf data).
Proof. unfold built_with. intros ->. by rewrite fold_left_app. Qed.

(** *** The two ways [Add] returns *)

Lemma Add_cases data s s' :
  Add data s = Some (tt, s') →
  ∃ fs last, filters s = fs ++ [last] ∧
    ((f_ge (pbf_EstimatedFillRatio last) (p s) = true ∧
      s' = set_filters
        (filters s ++ [pbf_Add (NewPartitionedBloomFilter (hint s)
                         (target_rate (fp s) (r s) (length (filters s)))) data]) s)
     ∨ (f_ge (pbf_EstimatedFillRatio last) (p s) = false ∧
        s' = set_filters (fs ++ [pbf_Add last data]) s)).
Proof.
  intros Hadd.
  destruct (list_snoc_cases (filters s)) as [Hfs|(l & x & Hfs)].
  - by rewrite Add_empty in Hadd.
  - exists l, x. split; [done|].
    destruct (f_ge (pbf_EstimatedFillRatio x) (p s)) eqn:Hge.
    + left. split; [done|].
      rewrite (Add_grow data s l x Hfs Hge) in Hadd. congruence.
    + right. split; [done|].
      rewrite (Add_keep data s l x Hfs Hge) in Hadd. congruence.
Qed.

Lemma Add_total data s : filters s ≠ [] → ∃ s', Add data s = Some (tt, s').
Proof.
  intros Hne.
  destruct (list_snoc_cases (filters s)) as [Hfs|(l & x & Hfs)]; [done|].
  destruct (f_ge (pbf_EstimatedFillRatio x) (p s)) eqn:Hge.
  - eexists. by apply (Add_grow data s l x).
  - eexists. by apply (Add_keep data s l x).
Qed.

End Runs.

(** ** The invariant of the reachable states *)

Section Invariant.
Context {F PBF : Type} `{Float64Ops F} `{PartitionedFilter F PBF}.
Variable fillRatio : F.
Variables (hint0 : uint) (fp0 r0 : F).

Implicit Types (s : ScalableBloomFilter F PBF) (bf : PBF) (data e : Data).

Lemma built_singleton bf ds :
  built_with hint0 (target_rate fp0 r0 0) ds bf →
  filters_built hint0 fp0 r0 [bf].
Proof.
  intros Hb i bf' Hi. destruct i as [|i]; simpl in Hi; [|done].
  injection Hi as <-. eauto.
Qed.

Lemma built_snoc fs bf ds :
  filters_built hint0 fp0 r0 fs →
  built_with hint0 (target_rate fp0 r0 (length fs)) ds bf →
  filters_built hint0 fp0 r0 (fs ++ [bf]).
Proof.
  intros Hfs Hb i bf' Hi.
  apply lookup_app_Some in Hi as [Hi|[Hlen Hi]]; [by apply Hfs|].
  apply list_lookup_singleton_Some in Hi as [Hi <-].
  replace i with (length fs) by lia. eauto.
Qed.

Lemma built_unsnoc fs bf :
  filters_built hint0 fp0 r0 (fs ++ [bf]) →
  filters_built hint0 fp0 r0 fs ∧
  ∃ ds, built_with hint0 (target_rate fp0 r0 (length fs)) ds bf.
Proof.
  intros Hb. split.
  - intros i bf' Hi. apply Hb. by apply lookup_app_l_Some.
  - apply Hb. by rewrite list_lookup_middle.
Qed.

Lemma inv_new s :
  NewScalableBloomFilter fillRatio hint0 fp0 r0 = Some s →
  series_inv fillRatio hint0 fp0 r0 s.
Proof.
  rewrite New_run. intros [= <-]. repeat split; simpl; try done.
  eapply built_singleton, built_new.
Qed.

Lemma inv_Reset s s' :
  series_inv fillRatio hint0 fp0 r0 s → Reset s = Some (tt, s') →
  series_inv fillRatio hint0 fp0 r0 s'.
Proof.
  intros (Hr & Hfp & Hp & Hh & _ & _). rewrite Reset_run. intros [= <-].
  repeat split; simpl; try done.
  rewrite Hr, Hfp, Hh. eapply built_singleton, built_new.
Qed.

Lemma inv_Add data s s' :
  series_inv fillRatio hint0 fp0 r0 s → Add data s = Some (tt, s') →
  series_inv fillRatio hint0 fp0 r0 s'.
Proof.
  intros (Hr & Hfp & Hp & Hh & Hne & Hb) Hadd.
  apply Add_cases in Hadd as (fs & last & Hfs & [[_ ->]|[_ ->]]);
    repeat split; simpl; try done.
  - by intros [? _]%app_eq_nil.
  - rewrite Hr, Hfp, Hh. eapply built_snoc; [done|].
    eapply (built_add _ _ []), built_new.
  - by intros [_ ?]%app_eq_nil.
  - rewrite Hfs in Hb. apply built_unsnoc in Hb as [Hb [ds Hlast]].
    eapply built_snoc; [done|]. by apply built_add.
Qed.

Lemma inv_exec o s s' :
  series_inv fillRatio hint0 fp0 r0 s → exec o s = Some s' →
  series_inv fillRatio hint0 fp0 r0 s'.
Proof.
  intros Hinv Hex. destruct o as [data|data|data|]; cbn [exec] in Hex.
  - rewrite Test_run in Hex. by injection Hex as <-.
  - destruct (Add data s) as [[[] s1]|] eqn:Hadd; [|done].
    injection Hex as <-. by eapply inv_Add.
  - rewrite TestAndAdd_run in Hex.
    destruct (Add data s) as [[[] s1]|] eqn:Hadd; [|done].
    injection Hex as <-. by eapply inv_Add.
  - destruct (Reset s) as [[[] s1]|] eqn:Hreset; [|done].
    injection Hex as <-. by eapply inv_Reset.
Qed.

Lemma reachable_inv s :
  reachable fillRatio hint0 fp0 r0 s → series_inv fillRatio hint0 fp0 r0 s.
Proof.
  induction 1 as [s Hnew|s o s' _ IH Hex]; [by apply inv_new|by eapply inv_exec].
Qed.

(** No call panics on a series that has a filter. *)
Lemma exec_total o s : filters s ≠ [] → ∃ s', exec o s = Some s'.
Proof.
  intros Hne. destruct o as [data|data|data|]; cbn [exec].
  - rewrite Test_run. eauto.
  - destruct (Add_total data s Hne) as [s' ->]. eauto.
  - rewrite TestAndAdd_run. destruct (Add_total data s Hne) as [s' ->]. eauto.
  - rewrite Reset_run. eauto.
Qed.

End Invariant.

(** ** The properties of the series *)

Section Properties.
Context {F PBF : Type} `{Float64Ops F} `{PartitionedFilter F PBF}.
Variable fillRatio : F.

Implicit Types (s : ScalableBloomFilter F PBF) (bf : PBF) (data e : Data).

Lemma Test_loop_true fs e :
  Test_loop fs e = true ↔ ∃ bf, bf ∈ fs ∧ pbf_Test bf e = true.
Proof.
  induction fs as [|bf fs IH]; simpl.
  - split; [done|]. intros (bf & Hin & _). by apply elem_of_nil in Hin.
  - destruct (pbf_Test bf e) eqn:Hbf.
    + split; [|done]. intros _. exists bf. split; [left|done].
    + rewrite IH. split.
      * intros (bf' & Hin & Ht). exists bf'. split; [by right|done].
      * intros (bf' & Hin & Ht). apply elem_of_cons in Hin as [->|Hin].
        -- congruence.
        -- eauto.
Qed.

Lemma Test_loop_false fs e :
  Test_loop fs e = false ↔ ∀ bf, bf ∈ fs → pbf_Test bf e = false.
Proof.
  rewrite <- not_true_iff_false, Test_loop_true. split.
  - intros Hno bf Hin. apply not_true_iff_false. intros Ht. apply Hno. eauto.
  - intros Hall (bf & Hin & Ht). rewrite (Hall bf Hin) in Ht. done.
Qed.

Lemma FillRatio_unfold s :
  FillRatio s = f_div (f_sum (pbf_FillRatio <$> filters s))
                      (float64 (len (filters s))).
Proof.
  unfold FillRatio, f_sum. f_equal.
  generalize f_zero. induction (filters s) as [|bf fs IH]; [done|].
  intros z. simpl. apply IH.
Qed.

(** C6. [Test] returns true exactly when some filter of the sequence
    reports the data, false exactly when every filter reports that it is
    absent, and the series after the call is the series before it. *)
Theorem Test_reports_any_filter e s :
  ∃ b, Test e s = Some (b, s) ∧
    (b = true ↔ ∃ bf, bf ∈ filters s ∧ pbf_Test bf e = true) ∧
    (b = false ↔ ∀ bf, bf ∈ filters s → pbf_Test bf e = false).
Proof.
  exists (Test_loop (filters s) e). split; [apply Test_run|].
  split; [apply Test_loop_true | apply Test_loop_false].
Qed.

(** C5. On every series, [TestAndAdd] returns the boolean that [Test]
    returns there, and it leaves the series that [Test] followed by [Add]
    leave (it panics exactly when that [Add] panics). *)
Theorem TestAndAdd_is_Test_then_Add e s :
  ∃ b, Test e s = Some (b, s) ∧
    TestAndAdd e s =
      ('(_, s1) ← Test e s; '(_, s2) ← Add e s1; Some (b, s2)).
Proof.
  exists (Test_loop (filters s) e). split; [apply Test_run|].
  rewrite TestAndAdd_run, Test_run. simpl.
  destruct (Add e s) as [[[] s2]|]; reflexivity.
Qed.

(** C8. A series reached from the constructor by calls of [Test], [Add],
    [TestAndAdd] and [Reset] has a filter; so [K] finds its filter 0,
    [Add] finds the last filter and returns, no call panics, and
    [FillRatio] divides by the conversion of a length that is at least 1. *)
Theorem filters_never_empty hint0 fp0 r0 s
    (Hs : reachable fillRatio hint0 fp0 r0 s) :
  filters s ≠ [] ∧
  (∃ bf, index (filters s) 0 = Some bf ∧ K s = Some (pbf_K bf)) ∧
  (∃ last, index (filters s) (len (filters s) - 1) = Some last) ∧
  (∀ data, ∃ s', Add data s = Some (tt, s')) ∧
  (∀ o, ∃ s', exec o s = Some s') ∧
  (1 ≤ len (filters s) ∧
   FillRatio s = f_div (f_sum (pbf_FillRatio <$> filters s))
                       (float64 (len (filters s)))).
Proof.
  apply reachable_inv in Hs as (_ & _ & _ & _ & Hne & _).
  split; [done|]. split; [|split; [|split; [|split]]].
  - unfold K. destruct (filters s) as [|bf fs]; [done|]. by exists bf.
  - destruct (list_snoc_cases (filters s)) as [?|(l & x & ->)]; [done|].
    exists x. apply index_last.
  - intros data. by apply Add_total.
  - intros o. by apply exec_total.
  - split.
    + unfold len. destruct (filters s); [done|]. simpl. lia.
    + apply FillRatio_unfold.
Qed.

(** No call writes a scalar field. *)
Lemma exec_frame o s s' :
  exec o s = Some s' →
  r s' = r s ∧ fp s' = fp s ∧ p s' = p s ∧ hint s' = hint s.
Proof.
  intros Hex. destruct o as [data|data|data|]; cbn [exec] in Hex.
  - rewrite Test_run in Hex. by injection Hex as <-.
  - destruct (Add data s) as [[[] s1]|] eqn:Hadd; [|done].
    injection Hex as <-.
    by apply Add_cases in Hadd as (fs & last & _ & [[_ ->]|[_ ->]]).
  - rewrite TestAndAdd_run in Hex.
    destruct (Add data s) as [[[] s1]|] eqn:Hadd; [|done].
    injection Hex as <-.
    by apply Add_cases in Hadd as (fs & last & _ & [[_ ->]|[_ ->]]).
  - rewrite Reset_run in Hex. by injection Hex as <-.
Qed.

(** C10. In a series made by [NewScalableBloomFilter hint0 fp0 r0] the
    fields [r], [fp] and [hint] are the constructor's arguments and [p]
    is the package constant [fillRatio], whatever calls were made; a call
    of [Test], [Add], [TestAndAdd] or [Reset] leaves the four fields as
    they are, and [Reset] builds its one filter from [hint0] and [fp0]. *)
Theorem config_fields_unchanged hint0 fp0 r0 s o s'
    (Hs : reachable fillRatio hint0 fp0 r0 s)
    (Hex : exec o s = Some s') :
  (r s = r0 ∧ fp s = fp0 ∧ p s = fillRatio ∧ hint s = hint0) ∧
  (r s' = r s ∧ fp s' = fp s ∧ p s' = p s ∧ hint s' = hint s) ∧
  (o = OpReset →
   filters s' = [NewPartitionedBloomFilter hint0 (target_rate fp0 r0 0)]).
Proof.
  apply reachable_inv in Hs as (Hr & Hfp & Hp & Hh & _ & _).
  split; [done|]. split; [by eapply exec_frame|].
  intros ->. cbn [exec] in Hex. rewrite Reset_run in Hex.
  injection Hex as <-. simpl. by rewrite Hr, Hfp, Hh.
Qed.

(** C3, as the code has it. [NewScalableBloomFilter] checks none of its
    arguments and has no error result: for every size hint, rate and
    ratio it returns a series that stores them as given, with [p] the
    package constant, and holds the one filter
    [NewPartitionedBloomFilter(hint, fpRate * Pow(r, 0))]. *)
Theorem NewScalableBloomFilter_accepts_all hint0 fp0 r0 :
  ∃ s, NewScalableBloomFilter fillRatio hint0 fp0 r0 = Some s ∧
    filters s = [NewPartitionedBloomFilter hint0
                   (f_mul fp0 (math_Pow r0 (float64 0)))] ∧
    r s = r0 ∧ fp s = fp0 ∧ p s = fillRatio ∧ hint s = hint0.
Proof. eexists. split; [apply New_run|]. done. Qed.

(** C7. After [Reset], whatever was called before, the series is the one
    [NewScalableBloomFilter] returns for the same arguments: one filter,
    new, built from the original size hint and the rate of index 0; so
    [Capacity] is that of a newly made series, and, a new partitioned
    filter reporting nothing, [Test] returns false for every element. *)
Theorem Reset_restores_initial_shape hint0 fp0 r0 s
    (Hempty : new_filter_empty)
    (Hs : reachable fillRatio hint0 fp0 r0 s) :
  ∃ s0 s',
    NewScalableBloomFilter fillRatio hint0 fp0 r0 = Some s0 ∧
    Reset s = Some (tt, s') ∧
    s' = s0 ∧
    filters s' = [NewPartitionedBloomFilter hint0 (target_rate fp0 r0 0)] ∧
    Capacity s' = Capacity s0 ∧
    ∀ e, Test e s' = Some (false, s').
Proof.
  apply reachable_inv in Hs as (Hr & Hfp & Hp & Hh & _ & _).
  eexists _, _. split; [apply New_run|]. split; [apply Reset_run|].
  assert (Heq : set_filters
      [NewPartitionedBloomFilter (hint s) (target_rate (fp s) (r s) 0)] s =
      mkSBF [NewPartitionedBloomFilter hint0 (target_rate fp0 r0 0)]
        r0 fp0 fillRatio hint0).
  { unfold set_filters. by rewrite Hr, Hfp, Hp, Hh. }
  rewrite Heq. split; [done|]. split; [done|]. split; [done|].
  intros e. rewrite Test_run. simpl. by rewrite Hempty.
Qed.

(** *** Elements stay *)

Lemma holds_Add_new hint0 fp0 r0 e s s' :
  series_inv fillRatio hint0 fp0 r0 s → Add e s = Some (tt, s') →
  holds e (filters s').
Proof.
  intros (_ & _ & _ & _ & _ & Hb) Hadd.
  apply Add_cases in Hadd as (fs & last & Hfs & [[_ ->]|[_ ->]]); simpl.
  - eexists _, _, _, [e]. split; [|split].
    + apply elem_of_app. right. apply list_elem_of_singleton. reflexivity.
    + apply (built_add _ _ []), built_new.
    + by apply list_elem_of_singleton.
  - rewrite Hfs in Hb. apply built_unsnoc in Hb as [_ [ds Hlast]].
    eexists _, _, _, (ds ++ [e]). split; [|split].
    + apply elem_of_app. right. apply list_elem_of_singleton. reflexivity.
    + by apply built_add.
    + apply elem_of_app. right. by apply list_elem_of_singleton.
Qed.

Lemma holds_Add e data s s' :
  holds e (filters s) → Add data s = Some (tt, s') → holds e (filters s').
Proof.
  intros (bf & h & rate & ds & Hin & Hb & He) Hadd.
  apply Add_cases in Hadd as (fs & last & Hfs & [[_ ->]|[_ ->]]); simpl.
  - exists bf, h, rate, ds. split; [|done]. apply elem_of_app. by left.
  - rewrite Hfs in Hin. apply elem_of_app in Hin as [Hin|Hin].
    + exists bf, h, rate, ds. split; [|done]. apply elem_of_app. by left.
    + apply list_elem_of_singleton in Hin as ->.
      exists (pbf_Add last data), h, rate, (ds ++ [data]). split; [|split].
      * apply elem_of_app. right. by apply list_elem_of_singleton.
      * by apply built_add.
      * apply elem_of_app. by left.
Qed.

Lemma holds_exec e o s s' :
  o ≠ OpReset → holds e (filters s) → exec o s = Some s' →
  holds e (filters s').
Proof.
  intros Ho Hh Hex. destruct o as [data|data|data|]; cbn [exec] in Hex.
  - rewrite Test_run in Hex. by injection Hex as <-.
  - destruct (Add data s) as [[[] s1]|] eqn:Hadd; [|done].
    injection Hex as <-. by eapply holds_Add.
  - rewrite TestAndAdd_run in Hex.
    destruct (Add data s) as [[[] s1]|] eqn:Hadd; [|done].
    injection Hex as <-. by eapply holds_Add.
  - done.
Qed.

Lemma holds_exec_all hint0 fp0 r0 e os : ∀ s,
  OpReset ∉ os → series_inv fillRatio hint0 fp0 r0 s →
  holds e (filters s) →
  ∃ s2, exec_all os s = Some s2 ∧ holds e (filters s2).
Proof.
  induction os as [|o os IH]; intros s Hos Hinv Hh; simpl; [eauto|].
  apply not_elem_of_cons in Hos as [Ho Hos].
  destruct (exec_total o s) as [s' Hex]; [apply Hinv|].
  rewrite Hex. simpl. apply IH; [done| |].
  - by eapply inv_exec.
  - by eapply holds_exec.
Qed.

Lemma holds_Test e s :
  zero_false_negatives → holds e (filters s) → Test e s = Some (true, s).
Proof.
  intros Hzfn (bf & h & rate & ds & Hin & Hb & He). rewrite Test_run.
  do 2 f_equal. apply Test_loop_true. exists bf. split; [done|].
  by eapply Hzfn.
Qed.

(** C1. If the partitioned filters have no false negatives, then on every
    reachable series [Add e] returns, and after it, whatever calls of
    [Add], [Test] and [TestAndAdd] follow (of any elements, appending
    filters or not), [Test e] returns true. *)
Theorem no_false_negatives hint0 fp0 r0 s e os
    (Hcontract : zero_false_negatives)
    (Hs : reachable fillRatio hint0 fp0 r0 s)
    (Hos : OpReset ∉ os) :
  ∃ s1, Add e s = Some (tt, s1) ∧
  ∃ s2, exec_all os s1 = Some s2 ∧ Test e s2 = Some (true, s2).
Proof.
  apply reachable_inv in Hs.
  destruct (Add_total e s) as [s1 Hadd]; [apply Hs|].
  exists s1. split; [done|].
  destruct (holds_exec_all hint0 fp0 r0 e os s1) as (s2 & Hrun & Hh); [done| | |].
  - by eapply inv_Add.
  - by eapply holds_Add_new.
  - exists s2. split; [done|]. by apply holds_Test.
Qed.

(** *** Rates *)

(** C2, as the code has it. In every series reached from
    [NewScalableBloomFilter hint0 fp0 r0] the filter at index [i] is the
    one built with the size hint and the rate that [float64] gives for
    [fp0 * Pow(r0, float64(i))], with insertions only since, and the filter
    that [addFilter] appends next is built with that rate for the number of
    filters there are. At index 0 the rate is [fp0] itself, [Pow(x, 0)]
    being one value for every [x] and a right unit of [fp0]. Where the
    rates of two indices that follow each other are computed without
    rounding, for [0 < fp0] and [0 < r0 < 1], the second is [r0] times the
    first and strictly smaller. *)
Theorem target_rate_of_each_filter hint0 fp0 r0 s
    (Hs : reachable fillRatio hint0 fp0 r0 s) :
  (∀ i, (i < length (filters s))%nat →
     ∃ bf ds, filters s !! i = Some bf ∧
       built_with hint0
         (f_mul fp0 (math_Pow r0 (float64 (Z.of_nat i)))) ds bf) ∧
  (∃ s', addFilter s = Some (tt, s') ∧
     filters s' = filters s ++
       [NewPartitionedBloomFilter hint0
          (f_mul fp0 (math_Pow r0 (float64 (len (filters s)))))]) ∧
  (∀ one : F, (∀ x, math_Pow x (float64 0) = one) → f_mul fp0 one = fp0 →
     ∃ bf ds, filters s !! 0%nat = Some bf ∧ built_with hint0 fp0 ds bf) ∧
  (∀ (toR : F → R) (i : nat),
     toR (target_rate fp0 r0 i) = (toR fp0 * toR r0 ^ i)%R →
     toR (target_rate fp0 r0 (S i)) = (toR fp0 * toR r0 ^ S i)%R →
     (0 < toR fp0)%R → (0 < toR r0 < 1)%R →
     toR (target_rate fp0 r0 (S i)) = (toR r0 * toR (target_rate fp0 r0 i))%R ∧
     (toR (target_rate fp0 r0 (S i)) < toR (target_rate fp0 r0 i))%R).
Proof.
apply reachable_inv in Hs as (Hr & Hfp & _ & Hh & Hne & Hb).
assert (Hall : ∀ i, (i < length (filters s))%nat →
  ∃ bf ds, filters s !! i = Some bf ∧
    built_with hint0 (target_rate fp0 r0 i) ds bf).
{ intros i Hi. destruct (lookup_lt_is_Some_2 (filters s) i Hi) as [bf Hbf].
  destruct (Hb i bf Hbf) as [ds Hds]. eauto. }
split; [exact Hall|]. split; [|split].
- eexists. split; [apply addFilter_run|]. simpl.
  by rewrite Hr, Hfp, Hh.
- intros one Hpow Hunit.
  destruct (Hall 0%nat) as (bf & ds & Hbf & Hds).
  { destruct (filters s); [done|]. simpl. lia. }
  exists bf, ds. split; [done|].
  unfold target_rate in Hds. simpl in Hds. by rewrite Hpow, Hunit in Hds.
- intros toR i Hi HSi Hpos Hratio. rewrite HSi, Hi. split; [simpl; ring|].
  assert (Hrate : (0 < toR fp0 * toR r0 ^ i)%R).
  { apply Rmult_lt_0_compat; [done|]. apply pow_lt. lra. }
  replace (toR fp0 * toR r0 ^ S i)%R
    with (toR r0 * (toR fp0 * toR r0 ^ i))%R by (simpl; ring).
  rewrite <- (Rmult_1_l (toR fp0 * toR r0 ^ i)) at 2.
  apply Rmult_lt_compat_r; [done|lra].
Qed.

(** *** Growth *)




(** *** The fill ratio *)

Lemma f_sum_exact (toR : F → R) `{!ExactSum toR} (xs : list F) : ∀ z,
  toR (fold_left f_add xs z) = (toR z + Rsum (toR <$> xs))%R.
Proof.
  induction xs as [|x xs IH]; intros z; simpl.
  - lra.
  - rewrite IH, toR_add. apply Rplus_assoc.
Qed.

(** C9. On a series with at least one filter, [FillRatio] is the sum of
    the filters' fill ratios divided by the number of filters: it depends
    on the list of fill ratios alone, no capacity enters, and read with
    exact arithmetic it is their arithmetic mean. *)
Theorem FillRatio_is_unweighted_mean s (Hne : filters s ≠ []) :
  FillRatio s = unweighted_mean (pbf_FillRatio <$> filters s) ∧
  (∀ s', pbf_FillRatio <$> filters s' = pbf_FillRatio <$> filters s →
         FillRatio s' = FillRatio s) ∧
  (∀ toR : F → R, ExactSum toR →
     toR (FillRatio s) =
     (Rsum (toR <$> (pbf_FillRatio <$> filters s)) /
      INR (length (filters s)))%R).
Proof.
  assert (Hunf : ∀ s0, FillRatio s0 =
                       unweighted_mean (pbf_FillRatio <$> filters s0)).
  { intros s0. rewrite FillRatio_unfold. unfold unweighted_mean, len.
    by rewrite length_fmap. }
  split; [apply Hunf|]. split.
  - intros s' Heq. by rewrite !Hunf, Heq.
  - intros toR Hexact. rewrite FillRatio_unfold. unfold len, f_sum.
    rewrite toR_div.
    + rewrite (f_sum_exact toR), toR_zero. f_equal. lra.
    + destruct (filters s); [done|]. simpl. lia.
Qed.

End Properties.

(** ** The properties at work on the reference instance *)

Section ReferenceFacts.
Import Reference.

Lemma Q2R_inject_Z (z : Z) : Q2R (inject_Z z) = IZR z.
Proof. unfold Q2R. simpl. lra. Qed.

Lemma Q_exact_sum : ExactSum Q2R.
Proof.
split.
- unfold Q2R. simpl. lra.
- apply Q2R_plus.
- intros a n Hn.
  change (Q2R (a / inject_Z (Z.of_nat n)) = (Q2R a / INR n)%R).
  unfold Qdiv. rewrite Q2R_mult, Q2R_inv.
  + by rewrite Q2R_inject_Z, INR_IZR_INZ.
  + intros Hz. unfold Qeq in Hz. simpl in Hz. lia.
Qed.

Lemma ListFilter_elems (ds : list Data) : ∀ bf,
  lf_elems (fold_left pbf_Add ds bf) = lf_elems bf ++ ds.
Proof.
  induction ds as [|d ds IH]; intros bf; simpl.
  - by rewrite app_nil_r.
  - rewrite IH. simpl. by rewrite <- app_assoc.
Qed.

Lemma ListFilter_zero_false_negatives : zero_false_negatives.
Proof.
  intros h rate ds bf e Hb He. rewrite Hb. simpl.
  apply bool_decide_eq_true. by rewrite ListFilter_elems.
Qed.

Lemma ListFilter_new_empty : new_filter_empty.
Proof. intros h rate e. reflexivity. Qed.

Lemma s_new_reachable : reachable fillRatio 1%N (1 # 100) (8 # 10) s_new.
Proof. apply reachable_new. reflexivity. Qed.

Lemma s_full_reachable : reachable fillRatio 1%N (1 # 100) (8 # 10) s_full.
Proof.
  apply (reachable_step _ _ _ _ s_new (OpAdd x1)); [apply s_new_reachable|].
  reflexivity.
Qed.

End ReferenceFacts.

Section ReferenceRuns.
Import Reference.

(** C1 on the reference instance: [x1] is added to a new series, three
    more calls follow, one of which appends a filter, and [Test(x1)]
    returns true. *)
Lemma no_false_negatives_witness :
  reachable fillRatio 1%N (1 # 100) (8 # 10) s_new ∧
  (OpReset ∉ [OpAdd x2; OpTestAndAdd x2; OpTest x2]) ∧
  ∃ s1, Add x1 s_new = Some (tt, s1) ∧
  ∃ s2, exec_all [OpAdd x2; OpTestAndAdd x2; OpTest x2] s1 = Some s2 ∧
        Test x1 s2 = Some (true, s2).
Proof.
  assert (Hos : OpReset ∉ [OpAdd x2; OpTestAndAdd x2; OpTest x2]).
  { intros Hin. repeat (apply elem_of_cons in Hin as [Hin|Hin]; [discriminate|]).
    by apply elem_of_nil in Hin. }
  split; [apply s_new_reachable|]. split; [exact Hos|].
  apply (no_false_negatives fillRatio 1%N (1 # 100) (8 # 10));
    [apply ListFilter_zero_false_negatives | apply s_new_reachable | exact Hos].
Defined.


(** C7 on the reference instance: [Reset] on the series that holds
    [x1]. *)
Lemma Reset_restores_initial_shape_witness :
  reachable fillRatio 1%N (1 # 100) (8 # 10) s_full ∧
  Test x1 s_full = Some (true, s_full) ∧
  ∃ s0 s',
    NewScalableBloomFilter fillRatio 1%N (1 # 100) (8 # 10) = Some s0 ∧
    Reset s_full = Some (tt, s') ∧
    s' = s0 ∧
    filters s' = [NewPartitionedBloomFilter 1%N (target_rate (1 # 100) (8 # 10) 0)] ∧
    Capacity s' = Capacity s0 ∧
    ∀ e, Test e s' = Some (false, s').
Proof.
  split; [apply s_full_reachable|]. split; [reflexivity|].
  apply (Reset_restores_initial_shape fillRatio 1%N (1 # 100) (8 # 10) s_full);
    [apply ListFilter_new_empty | apply s_full_reachable].
Defined.

(** C8 on the reference instance. *)
Lemma filters_never_empty_witness :
  reachable fillRatio 1%N (1 # 100) (8 # 10) s_full ∧
  filters s_full ≠ [] ∧
  (∃ bf, index (filters s_full) 0 = Some bf ∧ K s_full = Some (pbf_K bf)) ∧
  (∃ last, index (filters s_full) (len (filters s_full) - 1) = Some last) ∧
  (∀ data, ∃ s', Add data s_full = Some (tt, s')) ∧
  (∀ o, ∃ s', exec o s_full = Some s') ∧
  (1 ≤ len (filters s_full) ∧
   FillRatio s_full = f_div (f_sum (pbf_FillRatio <$> filters s_full))
                            (float64 (len (filters s_full)))).
Proof.
  split; [apply s_full_reachable|].
  apply (filters_never_empty fillRatio 1%N (1 # 100) (8 # 10) s_full).
  apply s_full_reachable.
Defined.

(** C9 on the reference instance, at the series with two filters. *)
Lemma FillRatio_is_unweighted_mean_witness :
  filters s_two ≠ [] ∧
  FillRatio s_two = unweighted_mean (pbf_FillRatio <$> filters s_two) ∧
  (∀ s', pbf_FillRatio <$> filters s' = pbf_FillRatio <$> filters s_two →
         FillRatio s' = FillRatio s_two) ∧
  (∀ toR : Q → R, ExactSum toR →
     toR (FillRatio s_two) =
     (Rsum (toR <$> (pbf_FillRatio <$> filters s_two)) /
      INR (length (filters s_two)))%R).
Proof.
  assert (Hne : filters s_two ≠ []) by discriminate.
  split; [exact Hne|].
  exact (FillRatio_is_unweighted_mean s_two Hne).
Defined.

(** C10 on the reference instance: the call [Add(x2)] that appends a
    filter. *)
Lemma config_fields_unchanged_witness :
  reachable fillRatio 1%N (1 # 100) (8 # 10) s_full ∧
  exec (OpAdd x2) s_full = Some s_two ∧
  (r s_full = (8 # 10) ∧ fp s_full = (1 # 100) ∧ p s_full = fillRatio ∧
   hint s_full = 1%N) ∧
  (r s_two = r s_full ∧ fp s_two = fp s_full ∧ p s_two = p s_full ∧
   hint s_two = hint s_full) ∧
  (OpAdd x2 = OpReset →
   filters s_two = [NewPartitionedBloomFilter 1%N (target_rate (1 # 100) (8 # 10) 0)]).
Proof.
  split; [apply s_full_reachable|]. split; [reflexivity|].
  apply (config_fields_unchanged fillRatio 1%N (1 # 100) (8 # 10) s_full
           (OpAdd x2) s_two); [apply s_full_reachable | reflexivity].
Defined.

(** C3 as the spec states it fails: a tightening ratio of [2], and a size
    hint of [0], are outside the constraints, and the constructor returns
    a series for each. *)
Lemma NewScalableBloomFilter_invalid_accepted :
  (¬ valid_parameters 100%N (1 # 100) (2 # 1) ∧
   NewScalableBloomFilter fillRatio 100%N (1 # 100) (2 # 1) =
     Some (mkSBF [mkLF 100%N (1 # 100) []] (2 # 1) (1 # 100) fillRatio 100%N)) ∧
  (¬ valid_parameters 0%N (1 # 100) (8 # 10) ∧
   NewScalableBloomFilter fillRatio 0%N (1 # 100) (8 # 10) =
     Some (mkSBF [mkLF 0%N (1 # 100) []] (8 # 10) (1 # 100) fillRatio 0%N)).
Proof.
  split; (split; [|reflexivity]).
  - intros (_ & _ & _ & Hr). by apply Qlt_alt in Hr.
  - intros (Hh & _). by apply N.lt_irrefl in Hh.
Qed.

End ReferenceRuns.

(** ** Further properties of the methods *)

Section Further.
Context {F PBF : Type} `{Float64Ops F} `{PartitionedFilter F PBF}.
Variable fillRatio : F.

Implicit Types (s : ScalableBloomFilter F PBF) (bf : PBF) (data e : Data).

(** *** Capacity *)

Lemma Capacity_loop_mod (fs : list PBF) : ∀ acc : N,
  (fold_left (λ capacity bf, uint_add capacity (pbf_Capacity bf)) fs acc
     mod uint_modulus =
   (acc + capacity_total fs) mod uint_modulus)%N.
Proof.
induction fs as [|bf fs IH]; intros acc; simpl.
- by rewrite N.add_0_r.
- rewrite IH. unfold uint_add.
  rewrite N.Div0.add_mod_idemp_l. f_equal. lia.
Qed.

Lemma Capacity_loop_small (fs : list PBF) : ∀ acc : N,
  (acc < uint_modulus)%N →
  (fold_left (λ capacity bf, uint_add capacity (pbf_Capacity bf)) fs acc
     < uint_modulus)%N.
Proof.
induction fs as [|bf fs IH]; intros acc Hacc; simpl; [done|].
apply IH. apply N.mod_lt. done.
Qed.

(** [Capacity] is the sum of the filters' capacities modulo [2^64]: the
    sum itself as long as that is below [2^64], and less than the sum once
    the additions of the loop have wrapped around. *)
Theorem Capacity_sum_mod s :
  Capacity s = (capacity_total (filters s) mod uint_modulus)%N ∧
  ((capacity_total (filters s) < uint_modulus)%N →
   Capacity s = capacity_total (filters s)) ∧
  ((uint_modulus ≤ capacity_total (filters s))%N →
   (Capacity s < capacity_total (filters s))%N).
Proof.
assert (Hmod : Capacity s = (capacity_total (filters s) mod uint_modulus)%N).
{ unfold Capacity.
  rewrite <- (N.mod_small (fold_left _ _ _) uint_modulus)
    by (by apply Capacity_loop_small).
  by rewrite Capacity_loop_mod. }
split; [done|]. split.
- intros Hlt. rewrite Hmod. by apply N.mod_small.
- intros Hge. rewrite Hmod.
  eapply N.lt_le_trans; [apply N.mod_lt; done|done].
Qed.

Lemma capacity_total_snoc (fs : list PBF) bf :
  capacity_total (fs ++ [bf]) = (capacity_total fs + pbf_Capacity bf)%N.
Proof.
unfold capacity_total. induction fs as [|x fs IH]; simpl; [lia|].
rewrite IH. lia.
Qed.

(** *** What a call does to the list of filters *)

(** The filters before the last one are those of before, and the number
    of filters grows by one at most. *)
Lemma Add_shape data s s' :
  Add data s = Some (tt, s') →
  ∃ fs last last', filters s = fs ++ [last] ∧
    (filters s' = fs ++ [last'] ∨ filters s' = fs ++ [last; last']).
Proof.
intros Hadd.
apply Add_cases in Hadd as (fs & last & Hfs & [[_ ->]|[_ ->]]); simpl.
- eexists fs, last, _. split; [done|]. right. rewrite Hfs.
  by rewrite <- app_assoc.
- eexists fs, last, _. split; [done|]. by left.
Qed.

Lemma exec_insert_shape o s s' :
  is_insert o = true → exec o s = Some s' →
  ∃ fs last last', filters s = fs ++ [last] ∧
    (filters s' = fs ++ [last'] ∨ filters s' = fs ++ [last; last']).
Proof.
intros Ho Hex. destruct o as [data|data|data|]; try done; cbn [exec] in Hex.
- destruct (Add data s) as [[[] s1]|] eqn:Hadd; [|done].
  injection Hex as <-. by eapply Add_shape.
- rewrite TestAndAdd_run in Hex.
  destruct (Add data s) as [[[] s1]|] eqn:Hadd; [|done].
  injection Hex as <-. by eapply Add_shape.
Qed.

Lemma exec_Test_same data s s' : exec (OpTest data) s = Some s' → s' = s.
Proof. cbn [exec]. rewrite Test_run. by intros [= <-]. Qed.

(** *** Panics *)

Lemma K_lookup s : K s = pbf_K <$> filters s !! 0%nat.
Proof. reflexivity. Qed.

(** A series without filters (the zero value of the struct) is the one
    state in which a method panics: [Add], [TestAndAdd] and [K] panic on
    it and on no other state. On it [Test] returns false and [Capacity] is
    [0]; [Reset] returns on every state. *)
Theorem panics_exactly_without_filters data s :
  (Add data s = None ↔ filters s = []) ∧
  (TestAndAdd data s = None ↔ filters s = []) ∧
  (K s = None ↔ filters s = []) ∧
  (filters s = [] → Test data s = Some (false, s) ∧ Capacity s = 0%N) ∧
  (∃ s', Reset s = Some (tt, s') ∧ filters s' ≠ []).
Proof.
assert (HAdd : Add data s = None ↔ filters s = []).
{ split; [|apply Add_empty].
  intros Hnone. destruct (decide (filters s = [])) as [|Hne]; [done|].
  destruct (Add_total data s Hne) as [s' Hs']. congruence. }
split; [done|]. split; [|split; [|split]].
- rewrite <- HAdd, TestAndAdd_run. by destruct (Add data s).
- rewrite K_lookup. by destruct (filters s).
- intros Hnil. rewrite Test_run. unfold Capacity. by rewrite Hnil.
- eexists. split; [apply Reset_run|]. done.
Qed.

(** *** Reset *)

Lemma exec_all_frame os : ∀ s s',
  exec_all os s = Some s' →
  r s' = r s ∧ fp s' = fp s ∧ p s' = p s ∧ hint s' = hint s.
Proof.
induction os as [|o os IH]; intros s s' Hrun; simpl in Hrun.
- by injection Hrun as <-.
- destruct (exec o s) as [s1|] eqn:Hex; [|done]. simpl in Hrun.
  apply exec_frame in Hex as (Hr & Hfp & Hp & Hh).
  apply IH in Hrun as (Hr' & Hfp' & Hp' & Hh'). repeat split; congruence.
Qed.

(** [Reset] forgets the calls made before it: after any sequence of calls
    it leaves the series it would have left at once, a series with one
    filter, which a second [Reset] leaves as it is. *)
Theorem Reset_absorbs_calls os s s' (Hrun : exec_all os s = Some s') :
  ∃ s1, Reset s = Some (tt, s1) ∧ Reset s' = Some (tt, s1) ∧
    Reset s1 = Some (tt, s1) ∧ length (filters s1) = 1%nat.
Proof.
apply exec_all_frame in Hrun as (Hr & Hfp & Hp & Hh).
eexists. split; [apply Reset_run|]. split; [|split; [|done]].
- rewrite Reset_run. unfold set_filters. by rewrite Hr, Hfp, Hp, Hh.
- by rewrite Reset_run.
Qed.

(** *** Filters that are no longer the last one *)

Lemma exec_prefix o s s' :
  o ≠ OpReset → exec o s = Some s' →
  (length (filters s) ≤ length (filters s') ≤ length (filters s) +
     (if is_insert o then 1 else 0))%nat ∧
  ∀ i, (S i < length (filters s))%nat → filters s' !! i = filters s !! i.
Proof.
intros Ho Hex. destruct (is_insert o) eqn:Hins.
- apply exec_insert_shape in Hex as (fs & last & last' & -> & [->| ->]);
    [| |done].
  + rewrite !length_app. simpl. split; [lia|]. intros i Hi.
    rewrite !lookup_app_l by lia. done.
  + rewrite !length_app. simpl. split; [lia|]. intros i Hi.
    rewrite !lookup_app_l by lia. done.
- destruct o as [data|data|data|]; try done.
  apply exec_Test_same in Hex as ->. split; [lia|done].
Qed.

Lemma exec_all_prefix os : ∀ s s',
  OpReset ∉ os → exec_all os s = Some s' →
  (length (filters s) ≤ length (filters s') ≤ length (filters s) +
     length (List.filter is_insert os))%nat ∧
  ∀ i, (S i < length (filters s))%nat → filters s' !! i = filters s !! i.
Proof.
induction os as [|o os IH]; intros s s' Hos Hrun; simpl in Hrun.
- injection Hrun as <-. simpl. split; [lia|done].
- apply not_elem_of_cons in Hos as [Ho Hos].
  destruct (exec o s) as [s1|] eqn:Hex; [|done]. simpl in Hrun.
  apply exec_prefix in Hex as [Hlen1 Hpre1]; [|done].
  apply IH in Hrun as [Hlen2 Hpre2]; [|done].
  split.
  + simpl. destruct (is_insert o); simpl; lia.
  + intros i Hi. rewrite Hpre2 by lia. by apply Hpre1.
Qed.

(** Between two calls of [Reset] the list of filters never shrinks, and a
    filter that is not the last one is never written again: at its index
    the series holds the same filter after any further calls. *)
Theorem superseded_filters_frozen os s s'
    (Hos : OpReset ∉ os) (Hrun : exec_all os s = Some s') :
  (length (filters s) ≤ length (filters s'))%nat ∧
  ∀ i bf, (S i < length (filters s))%nat →
    filters s !! i = Some bf → filters s' !! i = Some bf.
Proof.
destruct (exec_all_prefix os s s' Hos Hrun) as [Hlen Hpre].
split; [lia|]. intros i bf Hi Hbf. by rewrite Hpre.
Qed.

(** Between two calls of [Reset] the series gains at most one filter for
    each call of [Add] or [TestAndAdd], and none for a call of [Test]. *)
Theorem one_filter_per_insert_at_most os s s'
    (Hos : OpReset ∉ os) (Hrun : exec_all os s = Some s') :
  (length (filters s') ≤ length (filters s) +
     length (List.filter is_insert os))%nat.
Proof. destruct (exec_all_prefix os s s' Hos Hrun) as [Hlen _]. lia. Qed.

(** Once the series has a second filter, [K] returns the same number after
    any further calls of [Test], [Add] and [TestAndAdd]: filter 0 is no
    longer written. *)
Theorem K_stable_after_growth os s s'
    (Htwo : (2 ≤ length (filters s))%nat)
    (Hos : OpReset ∉ os) (Hrun : exec_all os s = Some s') :
  K s' = K s ∧ ∃ k, K s = Some k.
Proof.
destruct (exec_all_prefix os s s' Hos Hrun) as [_ Hpre].
rewrite !K_lookup, Hpre by lia. split; [done|].
destruct (filters s) as [|bf fs]; [simpl in Htwo; lia|]. by eexists.
Qed.

(** *** Capacity over calls *)

Lemma exec_capacity o s s' :
  capacity_fixed → o ≠ OpReset → exec o s = Some s' →
  (capacity_total (filters s) ≤ capacity_total (filters s'))%N ∧
  (length (filters s) ≤ length (filters s'))%nat ∧
  (length (filters s') = length (filters s) →
   capacity_total (filters s') = capacity_total (filters s)).
Proof.
intros Hfix Ho Hex.
assert (HAdd : ∀ data s1, Add data s = Some (tt, s1) →
  (capacity_total (filters s) ≤ capacity_total (filters s1))%N ∧
  (length (filters s) ≤ length (filters s1))%nat ∧
  (length (filters s1) = length (filters s) →
   capacity_total (filters s1) = capacity_total (filters s))).
{ intros data s1 Hadd.
  apply Add_cases in Hadd as (fs & last & Hfs & [[_ ->]|[_ ->]]); simpl.
  - rewrite capacity_total_snoc, length_app. simpl. repeat split; lia.
  - rewrite Hfs, !capacity_total_snoc, !length_app, Hfix. simpl.
    repeat split; lia. }
destruct o as [data|data|data|]; try done; cbn [exec] in Hex.
- rewrite Test_run in Hex. injection Hex as <-. repeat split; lia.
- destruct (Add data s) as [[[] s1]|] eqn:Hadd; [|done].
  injection Hex as <-. by eapply HAdd.
- rewrite TestAndAdd_run in Hex.
  destruct (Add data s) as [[[] s1]|] eqn:Hadd; [|done].
  injection Hex as <-. by eapply HAdd.
Qed.

Lemma exec_all_capacity os : ∀ s s',
  capacity_fixed → OpReset ∉ os → exec_all os s = Some s' →
  (capacity_total (filters s) ≤ capacity_total (filters s'))%N ∧
  (length (filters s) ≤ length (filters s'))%nat ∧
  (length (filters s') = length (filters s) →
   capacity_total (filters s') = capacity_total (filters s)).
Proof.
induction os as [|o os IH]; intros s s' Hfix Hos Hrun; simpl in Hrun.
- injection Hrun as <-. repeat split; lia.
- apply not_elem_of_cons in Hos as [Ho Hos].
  destruct (exec o s) as [s1|] eqn:Hex; [|done]. simpl in Hrun.
  apply exec_capacity in Hex as (Hc1 & Hl1 & He1); [|done..].
  apply IH in Hrun as (Hc2 & Hl2 & He2); [|done..].
  split; [lia|]. split; [lia|]. intros Heq.
  rewrite He2, He1; [done|lia|lia].
Qed.

(** With partitioned filters whose capacity an insertion does not change,
    and between two calls of [Reset]: the sum of the capacities never
    decreases, and it stays the same as long as no filter is appended; so
    does [Capacity], as long as the sum is below [2^64]. *)
Theorem capacity_never_decreases os s s'
    (Hfix : capacity_fixed)
    (Hos : OpReset ∉ os) (Hrun : exec_all os s = Some s') :
  (capacity_total (filters s) ≤ capacity_total (filters s'))%N ∧
  (length (filters s') = length (filters s) → Capacity s' = Capacity s) ∧
  ((capacity_total (filters s') < uint_modulus)%N →
   (Capacity s ≤ Capacity s')%N).
Proof.
destruct (exec_all_capacity os s s' Hfix Hos Hrun) as (Hc & _ & He).
split; [done|]. split.
- intros Heq. unfold Capacity.
  rewrite <- (N.mod_small (fold_left _ (filters s') _) uint_modulus)
    by (by apply Capacity_loop_small).
  rewrite <- (N.mod_small (fold_left _ (filters s) _) uint_modulus)
    by (by apply Capacity_loop_small).
  by rewrite !Capacity_loop_mod, He.
- intros Hlt. unfold Capacity.
  rewrite <- (N.mod_small (fold_left _ (filters s') _) uint_modulus)
    by (by apply Capacity_loop_small).
  rewrite <- (N.mod_small (fold_left _ (filters s) _) uint_modulus)
    by (by apply Capacity_loop_small).
  rewrite !Capacity_loop_mod, !N.add_0_l, !N.mod_small; [done|lia|lia].
Qed.

(** *** The order of the filters in [Test] *)

(** [Test] returns the same answer on two series that hold the same
    filters, in whatever order and however often: the order of the scan
    decides only where the loop stops. *)
Theorem Test_ignores_filter_order e s1 s2
    (Hsame : ∀ bf, bf ∈ filters s1 ↔ bf ∈ filters s2) :
  fst <$> Test e s1 = fst <$> Test e s2.
Proof.
rewrite !Test_run. simpl. f_equal.
destruct (Test_loop (filters s2) e) eqn:H2.
- apply Test_loop_true in H2 as (bf & Hin & Ht).
  apply Test_loop_true. exists bf. split; [by apply Hsame|done].
- apply Test_loop_false. intros bf Hin.
  eapply Test_loop_false in H2; [done|]. by apply Hsame.
Qed.

(** *** Repeated elements *)

Lemma exec_all_reachable hint0 fp0 r0 os : ∀ s s',
  reachable fillRatio hint0 fp0 r0 s → exec_all os s = Some s' →
  reachable fillRatio hint0 fp0 r0 s'.
Proof.
induction os as [|o os IH]; intros s s' Hs Hrun; simpl in Hrun.
- by injection Hrun as <-.
- destruct (exec o s) as [s1|] eqn:Hex; [|done]. simpl in Hrun.
  eapply IH; [|done]. by eapply reachable_step.
Qed.

Lemma inv_exec_all hint0 fp0 r0 os : ∀ s s',
  series_inv fillRatio hint0 fp0 r0 s → exec_all os s = Some s' →
  series_inv fillRatio hint0 fp0 r0 s'.
Proof.
induction os as [|o os IH]; intros s s' Hs Hrun; simpl in Hrun.
- by injection Hrun as <-.
- destruct (exec o s) as [s1|] eqn:Hex; [|done]. simpl in Hrun.
  eapply IH; [|done]. by eapply inv_exec.
Qed.

(** If the partitioned filters have no false negatives, [TestAndAdd]
    reports a repeated element: on a reachable series, after
    [TestAndAdd(e)] and any calls of [Test], [Add] and [TestAndAdd], a
    second [TestAndAdd(e)] returns true. *)
Theorem TestAndAdd_reports_repeat hint0 fp0 r0 s e os
    (Hcontract : zero_false_negatives)
    (Hs : reachable fillRatio hint0 fp0 r0 s)
    (Hos : OpReset ∉ os) :
  ∃ b s1 s2 s3, TestAndAdd e s = Some (b, s1) ∧
    exec_all os s1 = Some s2 ∧ TestAndAdd e s2 = Some (true, s3).
Proof.
apply reachable_inv in Hs.
destruct (Add_total e s) as [s1 Hadd]; [apply Hs|].
destruct (holds_exec_all fillRatio hint0 fp0 r0 e os s1) as (s2 & Hrun & Hh);
  [done|by eapply inv_Add|by eapply holds_Add_new|].
assert (Hinv2 : series_inv fillRatio hint0 fp0 r0 s2).
{ eapply inv_exec_all; [|done]. by eapply inv_Add. }
destruct (Add_total e s2) as [s3 Hadd3]; [apply Hinv2|].
exists (Test_loop (filters s) e), s1, s2, s3.
split; [by rewrite TestAndAdd_run, Hadd|]. split; [done|].
rewrite TestAndAdd_run, Hadd3. simpl. do 2 f_equal.
apply holds_Test in Hh; [|done]. rewrite Test_run in Hh. by injection Hh.
Qed.

(** *** Where the inserted data is *)

Lemma replay_snoc hint0 fp0 r0 (dss : list (list Data)) (ds : list Data) :
  replay hint0 fp0 r0 (dss ++ [ds]) =
  replay hint0 fp0 r0 dss ++
    [fold_left pbf_Add ds
       (NewPartitionedBloomFilter hint0 (target_rate fp0 r0 (length dss)))].
Proof. unfold replay. rewrite imap_app. simpl. by rewrite Nat.add_0_r. Qed.

Lemma length_replay hint0 fp0 r0 (dss : list (list Data)) :
  length (replay hint0 fp0 r0 dss) = length dss.
Proof. apply length_imap. Qed.

Lemma replay_unsnoc hint0 fp0 r0 (dss : list (list Data)) fs last :
  fs ++ [last] = replay hint0 fp0 r0 dss →
  ∃ dss0 dl, dss = dss0 ++ [dl] ∧ fs = replay hint0 fp0 r0 dss0 ∧
    last = fold_left pbf_Add dl
             (NewPartitionedBloomFilter hint0 (target_rate fp0 r0 (length dss0))).
Proof.
intros Heq. destruct (list_snoc_cases dss) as [->|(dss0 & dl & ->)].
- by destruct fs.
- rewrite replay_snoc in Heq. apply app_inj_tail in Heq as [-> ->]. eauto.
Qed.

Lemma later_nonempty_snoc (dss : list (list Data)) (ds : list Data) :
  (∀ i d, dss !! S i = Some d → d ≠ []) → ds ≠ [] →
  ∀ i d, (dss ++ [ds]) !! S i = Some d → d ≠ [].
Proof.
intros Hdss Hds i d Hi.
apply lookup_app_Some in Hi as [Hi|[_ Hi]]; [by eapply Hdss|].
apply list_lookup_singleton_Some in Hi as [_ <-]. done.
Qed.

Lemma Add_history hint0 fp0 r0 data s s' (dss : list (list Data)) :
  r s = r0 → fp s = fp0 → hint s = hint0 →
  filters s = replay hint0 fp0 r0 dss →
  (∀ i d, dss !! S i = Some d → d ≠ []) →
  Add data s = Some (tt, s') →
  ∃ dss', filters s' = replay hint0 fp0 r0 dss' ∧
    concat dss' = concat dss ++ [data] ∧
    (∀ i d, dss' !! S i = Some d → d ≠ []).
Proof.
intros Hr Hfp Hh Hfs Hne Hadd.
apply Add_cases in Hadd as (fs & last & Hlast & [[_ ->]|[_ ->]]); simpl.
- exists (dss ++ [[data]]). split; [|split].
  + rewrite replay_snoc, Hfs, length_replay, Hr, Hfp, Hh. done.
  + rewrite concat_app. simpl. done.
  + by apply later_nonempty_snoc.
- rewrite Hfs in Hlast. symmetry in Hlast.
  apply replay_unsnoc in Hlast as (dss0 & dl & -> & -> & ->).
  exists (dss0 ++ [dl ++ [data]]). split; [|split].
  + by rewrite replay_snoc, fold_left_app.
  + rewrite !concat_app. simpl. by rewrite !app_nil_r, app_assoc.
  + apply later_nonempty_snoc.
    * intros i d Hi. apply (Hne i). by apply lookup_app_l_Some.
    * by destruct dl.
Qed.

Lemma exec_history hint0 fp0 r0 o s s' (dss : list (list Data)) :
  r s = r0 → fp s = fp0 → hint s = hint0 →
  filters s = replay hint0 fp0 r0 dss →
  (∀ i d, dss !! S i = Some d → d ≠ []) →
  exec o s = Some s' →
  ∃ dss', filters s' = replay hint0 fp0 r0 dss' ∧
    concat dss' = log_step (concat dss) o ∧
    (∀ i d, dss' !! S i = Some d → d ≠ []).
Proof.
intros Hr Hfp Hh Hfs Hne Hex.
destruct o as [data|data|data|]; cbn [exec] in Hex; simpl.
- rewrite Test_run in Hex. injection Hex as <-. eauto.
- destruct (Add data s) as [[[] s1]|] eqn:Hadd; [|done].
  injection Hex as <-. by eapply Add_history.
- rewrite TestAndAdd_run in Hex.
  destruct (Add data s) as [[[] s1]|] eqn:Hadd; [|done].
  injection Hex as <-. by eapply Add_history.
- rewrite Reset_run in Hex. injection Hex as <-. exists [[]].
  split; [|split]; [|done|done]. simpl. by rewrite Hr, Hfp, Hh.
Qed.

Lemma exec_all_history hint0 fp0 r0 os : ∀ s s' (dss : list (list Data)),
  r s = r0 → fp s = fp0 → hint s = hint0 →
  filters s = replay hint0 fp0 r0 dss →
  (∀ i d, dss !! S i = Some d → d ≠ []) →
  exec_all os s = Some s' →
  ∃ dss', filters s' = replay hint0 fp0 r0 dss' ∧
    concat dss' = fold_left log_step os (concat dss) ∧
    (∀ i d, dss' !! S i = Some d → d ≠ []).
Proof.
induction os as [|o os IH]; intros s s' dss Hr Hfp Hh Hfs Hne Hrun;
  simpl in Hrun.
- injection Hrun as <-. eauto.
- destruct (exec o s) as [s1|] eqn:Hex; [|done]. simpl in Hrun.
  pose proof (exec_frame _ _ _ Hex) as (Hr1 & Hfp1 & _ & Hh1).
  destruct (exec_history hint0 fp0 r0 o s s1 dss) as (dss1 & Hfs1 & Hc1 & Hne1);
    [done..|].
  destruct (IH s1 s' dss1) as (dss' & Hfs' & Hc' & Hne');
    [congruence..|done|done|done|].
  exists dss'. split; [done|]. split; [|done]. simpl. by rewrite <- Hc1.
Qed.

(** After [NewScalableBloomFilter hint0 fp0 r0] and any calls, the series
    holds the data inserted since the last [Reset], each insertion once
    and in the order of the calls, cut into consecutive runs: filter [i]
    is the filter [addFilter] builds at index [i] after the insertions of
    run [i], and every run but the first has an element. *)
Theorem filters_replay_inserted hint0 fp0 r0 os s0 s
    (Hnew : NewScalableBloomFilter fillRatio hint0 fp0 r0 = Some s0)
    (Hrun : exec_all os s0 = Some s) :
  ∃ dss : list (list Data),
    filters s = replay hint0 fp0 r0 dss ∧
    concat dss = inserted os ∧
    (∀ i d, dss !! S i = Some d → d ≠ []).
Proof.
rewrite New_run in Hnew. injection Hnew as <-.
apply (exec_all_history hint0 fp0 r0 os _ s [[]]) in Hrun; done.
Qed.

(** *** The default constructor *)

Lemma exec_all_total os : ∀ s,
  filters s ≠ [] → ∃ s', exec_all os s = Some s' ∧ filters s' ≠ [].
Proof.
induction os as [|o os IH]; intros s Hne; simpl; [eauto|].
destruct (exec_total o s Hne) as [s1 Hex]. rewrite Hex. simpl.
apply IH. destruct o as [data|data|data|]; cbn [exec] in Hex.
- rewrite Test_run in Hex. by injection Hex as <-.
- destruct (Add data s) as [[[] s2]|] eqn:Hadd; [|done]. injection Hex as <-.
  apply Add_shape in Hadd as (fs & l & l' & _ & [->| ->]); by destruct fs.
- rewrite TestAndAdd_run in Hex.
  destruct (Add data s) as [[[] s2]|] eqn:Hadd; [|done]. injection Hex as <-.
  apply Add_shape in Hadd as (fs & l & l' & _ & [->| ->]); by destruct fs.
- rewrite Reset_run in Hex. by injection Hex as <-.
Qed.

(** [NewDefaultScalableBloomFilter(fpRate)] returns a series on which no
    sequence of calls panics, and which keeps, whatever is called, the size
    hint [10000], the ratio [0.8] and the given rate: filter [i] is built
    with the hint [10000] and the rate [fpRate * Pow(0.8, float64(i))]. *)
Theorem NewDefault_series (f_0_8 fp0 : F) :
  ∃ s0, NewDefaultScalableBloomFilter fillRatio f_0_8 fp0 = Some s0 ∧
    ∀ os, ∃ s, exec_all os s0 = Some s ∧
      hint s = 10000%N ∧ r s = f_0_8 ∧ fp s = fp0 ∧ p s = fillRatio ∧
      ∀ i bf, filters s !! i = Some bf →
        ∃ ds, built_with 10000%N
                (f_mul fp0 (math_Pow f_0_8 (float64 (Z.of_nat i)))) ds bf.
Proof.
unfold NewDefaultScalableBloomFilter.
eexists. split; [apply New_run|]. intros os.
edestruct (exec_all_total os) as (s & Hrun & _); [|exists s; split; [exact Hrun|]].
{ done. }
eapply inv_exec_all in Hrun as (Hr & Hfp & Hp & Hh & _ & Hb);
  [|apply inv_new, New_run].
done.
Qed.

(** *** A new series *)

(** With partitioned filters that report nothing when new and have no
    false negatives, a series just made answers [TestAndAdd(e)] with false
    and the next [TestAndAdd(e)] with true. *)
Theorem TestAndAdd_first_then_repeat hint0 fp0 r0 s0 e
    (Hempty : new_filter_empty)
    (Hcontract : zero_false_negatives)
    (Hnew : NewScalableBloomFilter fillRatio hint0 fp0 r0 = Some s0) :
  ∃ s1 s2, TestAndAdd e s0 = Some (false, s1) ∧
           TestAndAdd e s1 = Some (true, s2).
Proof.
pose proof (inv_new fillRatio hint0 fp0 r0 s0 Hnew) as Hinv.
rewrite New_run in Hnew. injection Hnew as <-.
destruct (Add_total e _ (proj1 (proj2 (proj2 (proj2 (proj2 Hinv))))))
  as [s1 Hadd].
pose proof (inv_Add _ _ _ _ _ _ _ Hinv Hadd) as Hinv1.
pose proof (holds_Add_new _ _ _ _ _ _ _ Hinv Hadd) as Hh.
destruct (Add_total e s1) as [s2 Hadd2]; [apply Hinv1|].
exists s1, s2. split.
- rewrite TestAndAdd_run, Hadd. simpl. by rewrite Hempty.
- rewrite TestAndAdd_run, Hadd2. simpl. do 2 f_equal.
  apply holds_Test in Hh; [|done]. rewrite Test_run in Hh. by injection Hh.
Qed.

(** *** What [Test] answers after a sequence of calls *)

(** After [NewScalableBloomFilter] and any calls: with partitioned filters
    that have no false negatives, [Test] returns true for every element
    inserted (by [Add] or [TestAndAdd]) since the last [Reset]; with
    partitioned filters that report nothing when new, [Test] returns false
    for every element when nothing was inserted since the last [Reset]. *)
Theorem Test_after_calls hint0 fp0 r0 os s0 s e
    (Hnew : NewScalableBloomFilter fillRatio hint0 fp0 r0 = Some s0)
    (Hrun : exec_all os s0 = Some s) :
  (zero_false_negatives → e ∈ inserted os → Test e s = Some (true, s)) ∧
  (new_filter_empty → inserted os = [] → Test e s = Some (false, s)).
Proof.
rewrite New_run in Hnew. injection Hnew as <-.
apply (exec_all_history hint0 fp0 r0 os _ s [[]]) in Hrun
  as (dss & Hfs & Hcat & Hne); [|done..].
change (fold_left log_step os (concat [[]])) with (inserted os) in Hcat.
rewrite Test_run, Hfs. split.
- intros Hzfn Hin. do 2 f_equal. apply Test_loop_true.
  rewrite <- Hcat in Hin. apply list_elem_of_In, in_concat in Hin
    as (ds & Hds & He).
  apply list_elem_of_In, list_elem_of_lookup in Hds as [i Hi].
  eexists. split.
  + apply list_elem_of_lookup. exists i. unfold replay.
    rewrite list_lookup_imap, Hi. reflexivity.
  + eapply Hzfn; [reflexivity|]. by apply list_elem_of_In.
- intros Hempty Hnone. do 2 f_equal. rewrite Hnone in Hcat.
  destruct dss as [|d rest]; [done|].
  simpl in Hcat. apply app_eq_nil in Hcat as [-> Hrest].
  destruct rest as [|d' rest].
  + simpl. by rewrite Hempty.
  + simpl in Hrest. apply app_eq_nil in Hrest as [-> _].
    by destruct (Hne 0%nat [] eq_refl).
Qed.

End Further.

Section ReferenceFurther.
Import Reference.

Lemma ListFilter_capacity_fixed : capacity_fixed.
Proof. intros bf data. reflexivity. Qed.

Lemma calls_two_no_Reset : OpReset ∉ calls_two.
Proof.
intros Hin. unfold calls_two in Hin.
repeat (apply elem_of_cons in Hin as [Hin|Hin]; [discriminate|]).
by apply elem_of_nil in Hin.
Qed.

Lemma calls_more_no_Reset : OpReset ∉ calls_more.
Proof.
intros Hin. unfold calls_more in Hin.
repeat (apply elem_of_cons in Hin as [Hin|Hin]; [discriminate|]).
by apply elem_of_nil in Hin.
Qed.

Lemma calls_two_run : exec_all calls_two s_new = Some s_two.
Proof. reflexivity. Qed.

Lemma s_new_constructed :
  NewScalableBloomFilter fillRatio 1%N (1 # 100) (8 # 10) = Some s_new.
Proof. reflexivity. Qed.

(** [Reset] after the calls that made [s_two]. *)
Lemma Reset_absorbs_calls_witness :
  exec_all calls_two s_new = Some s_two ∧
  ∃ s1, Reset s_new = Some (tt, s1) ∧ Reset s_two = Some (tt, s1) ∧
    Reset s1 = Some (tt, s1) ∧ length (filters s1) = 1%nat.
Proof.
split; [apply calls_two_run|].
apply (Reset_absorbs_calls calls_two s_new s_two calls_two_run).
Defined.

(** The first filter of [s_two] after two more insertions. *)
Lemma superseded_filters_frozen_witness :
  ∃ s', exec_all calls_more s_two = Some s' ∧
    (length (filters s_two) ≤ length (filters s'))%nat ∧
    ∀ i bf, (S i < length (filters s_two))%nat →
      filters s_two !! i = Some bf → filters s' !! i = Some bf.
Proof.
eexists. split; [reflexivity|].
apply (superseded_filters_frozen calls_more s_two _ calls_more_no_Reset).
reflexivity.
Defined.

(** Three calls, two of them insertions, on a series with one filter. *)
Lemma one_filter_per_insert_at_most_witness :
  exec_all calls_two s_new = Some s_two ∧
  (length (filters s_two) ≤ length (filters s_new) +
     length (List.filter is_insert calls_two))%nat.
Proof.
split; [apply calls_two_run|].
apply (one_filter_per_insert_at_most calls_two s_new s_two
         calls_two_no_Reset calls_two_run).
Defined.

(** [K] on [s_two] and after two more filters were appended. *)
Lemma K_stable_after_growth_witness :
  (2 ≤ length (filters s_two))%nat ∧
  ∃ s', exec_all calls_more s_two = Some s' ∧
    length (filters s') = 4%nat ∧
    K s' = K s_two ∧ ∃ k, K s_two = Some k.
Proof.
split; [simpl; lia|]. eexists. split; [reflexivity|]. split; [reflexivity|].
apply (K_stable_after_growth calls_more s_two);
  [simpl; lia | apply calls_more_no_Reset | reflexivity].
Defined.

(** The capacities from [s_new] to [s_two]. *)
Lemma capacity_never_decreases_witness :
  exec_all calls_two s_new = Some s_two ∧
  (capacity_total (filters s_new) ≤ capacity_total (filters s_two))%N ∧
  (length (filters s_two) = length (filters s_new) →
   Capacity s_two = Capacity s_new) ∧
  ((capacity_total (filters s_two) < uint_modulus)%N →
   (Capacity s_new ≤ Capacity s_two)%N).
Proof.
split; [apply calls_two_run|].
apply (capacity_never_decreases calls_two s_new s_two
         ListFilter_capacity_fixed calls_two_no_Reset calls_two_run).
Defined.

(** [Test] on [s_two] and on the series with the filters swapped. *)
Lemma Test_ignores_filter_order_witness :
  (∀ bf, bf ∈ filters s_two ↔ bf ∈ filters s_swapped) ∧
  fst <$> Test x2 s_two = fst <$> Test x2 s_swapped ∧
  fst <$> Test x2 s_two = Some true.
Proof.
assert (Hsame : ∀ bf, bf ∈ filters s_two ↔ bf ∈ filters s_swapped).
{ intros bf. simpl. rewrite !elem_of_cons. tauto. }
split; [exact Hsame|]. split; [|reflexivity].
apply (Test_ignores_filter_order x2 s_two s_swapped Hsame).
Defined.

(** [TestAndAdd(x2)] on [s_full], other calls, then [TestAndAdd(x2)]
    again. *)
Lemma TestAndAdd_reports_repeat_witness :
  reachable fillRatio 1%N (1 # 100) (8 # 10) s_full ∧
  ∃ b s1 s2 s3, TestAndAdd x2 s_full = Some (b, s1) ∧
    exec_all calls_more s1 = Some s2 ∧ TestAndAdd x2 s2 = Some (true, s3).
Proof.
split; [apply s_full_reachable|].
apply (TestAndAdd_reports_repeat fillRatio 1%N (1 # 100) (8 # 10) s_full x2
         calls_more ListFilter_zero_false_negatives s_full_reachable
         calls_more_no_Reset).
Defined.

(** The filters of [s_two] and the data inserted by [calls_two]. *)
Lemma filters_replay_inserted_witness :
  NewScalableBloomFilter fillRatio 1%N (1 # 100) (8 # 10) = Some s_new ∧
  exec_all calls_two s_new = Some s_two ∧
  inserted calls_two = [x1; x2] ∧
  ∃ dss : list (list Data),
    filters s_two = replay 1%N (1 # 100) (8 # 10) dss ∧
    concat dss = inserted calls_two ∧
    (∀ i d, dss !! S i = Some d → d ≠ []).
Proof.
split; [reflexivity|]. split; [apply calls_two_run|]. split; [reflexivity|].
apply (filters_replay_inserted fillRatio 1%N (1 # 100) (8 # 10) calls_two
         s_new s_two s_new_constructed calls_two_run).
Defined.

(** [TestAndAdd(x1)] twice on a new series. *)
Lemma TestAndAdd_first_then_repeat_witness :
  NewScalableBloomFilter fillRatio 1%N (1 # 100) (8 # 10) = Some s_new ∧
  ∃ s1 s2, TestAndAdd x1 s_new = Some (false, s1) ∧
           TestAndAdd x1 s1 = Some (true, s2).
Proof.
split; [reflexivity|].
apply (TestAndAdd_first_then_repeat fillRatio 1%N (1 # 100) (8 # 10) s_new x1
         ListFilter_new_empty ListFilter_zero_false_negatives s_new_constructed).
Defined.

(** [Test] on [s_two] for the inserted [x1], and on a new series after a
    call of [Test]. *)
Lemma Test_after_calls_witness :
  NewScalableBloomFilter fillRatio 1%N (1 # 100) (8 # 10) = Some s_new ∧
  exec_all calls_two s_new = Some s_two ∧
  (zero_false_negatives → x1 ∈ inserted calls_two →
   Test x1 s_two = Some (true, s_two)) ∧
  (new_filter_empty → inserted calls_two = [] →
   Test x1 s_two = Some (false, s_two)).
Proof.
split; [apply s_new_constructed|]. split; [apply calls_two_run|].
apply (Test_after_calls fillRatio 1%N (1 # 100) (8 # 10) calls_two s_new s_two
         x1 s_new_constructed calls_two_run).
Defined.

End ReferenceFurther.

(** ** The rates on binary64 *)

Section Binary64Runs.
Import Reference Binary64.

Lemma s_half_two_reachable :
  reachable fillRatio64 1%N b64_half b64_half s_half_two.
Proof.
eapply (exec_all_reachable fillRatio64 1%N b64_half b64_half [OpAdd x1; OpAdd x2]).
- apply reachable_new. reflexivity.
- vm_compute. reflexivity.
Qed.

Lemma s_tiny_two_reachable :
  reachable fillRatio64 1%N b64_tiny b64_06 s_tiny_two.
Proof.
eapply (exec_all_reachable fillRatio64 1%N b64_tiny b64_06 [OpAdd x1; OpAdd x2]).
- apply reachable_new. reflexivity.
- vm_compute. reflexivity.
Qed.

Lemma b64_Pow_zero (x : spec_float) : math_Pow x (float64 0) = b64_one.
Proof. reflexivity. Qed.

Lemma b64_half_rate_0 :
  b64_to_R (target_rate b64_half b64_half 0) =
  (b64_to_R b64_half * b64_to_R b64_half ^ 0)%R.
Proof.
unfold b64_to_R.
set (a := b64_to_Q (target_rate _ _ _)). vm_compute in a.
set (b := b64_to_Q b64_half). vm_compute in b.
subst a b. unfold Q2R. simpl. lra.
Qed.

Lemma b64_half_rate_1 :
  b64_to_R (target_rate b64_half b64_half 1) =
  (b64_to_R b64_half * b64_to_R b64_half ^ 1)%R.
Proof.
unfold b64_to_R.
set (a := b64_to_Q (target_rate _ _ _)). vm_compute in a.
set (b := b64_to_Q b64_half). vm_compute in b.
subst a b. unfold Q2R. simpl. lra.
Qed.

Lemma b64_half_between : (0 < b64_to_R b64_half < 1)%R.
Proof.
unfold b64_to_R. set (b := b64_to_Q b64_half). vm_compute in b.
subst b. unfold Q2R. simpl. lra.
Qed.

(** C2 as the spec states it fails on binary64. The rate [2^-1074] and
    the ratio [0.6] are both inside [(0, 1)]; the series they make has,
    after two insertions, a second filter, and [2^-1074 * Pow(0.6, 1)]
    rounds to [2^-1074]: the filters at index 0 and at index 1 are built
    with the same rate, not with a smaller one. *)
Lemma rates_repeat_on_binary64 :
  (SFltb (S754_zero false) b64_tiny = true ∧ SFltb b64_tiny b64_one = true) ∧
  (SFltb (S754_zero false) b64_06 = true ∧ SFltb b64_06 b64_one = true) ∧
  reachable fillRatio64 1%N b64_tiny b64_06 s_tiny_two ∧
  filters s_tiny_two !! 0%nat = Some (mkBF 1%N b64_tiny [x1]) ∧
  filters s_tiny_two !! 1%nat = Some (mkBF 1%N b64_tiny [x2]) ∧
  built_with 1%N (target_rate b64_tiny b64_06 0) [x1] (mkBF 1%N b64_tiny [x1]) ∧
  built_with 1%N (target_rate b64_tiny b64_06 1) [x2] (mkBF 1%N b64_tiny [x2]) ∧
  target_rate b64_tiny b64_06 1 = target_rate b64_tiny b64_06 0 ∧
  SFltb (target_rate b64_tiny b64_06 1) (target_rate b64_tiny b64_06 0) = false.
Proof.
split; [split; reflexivity|]. split; [split; reflexivity|].
split; [apply s_tiny_two_reachable|].
repeat split; vm_compute; reflexivity.
Qed.

(** C2 as the code has it, on binary64: the series made with the rate
    [0.5] and the ratio [0.5], with two filters. They are built with [0.5]
    and [0.25], the next one would be built with [0.125], and, the two
    rates being computed without rounding, the second is [0.5] times the
    first and smaller. *)
Lemma target_rate_of_each_filter_witness :
  reachable fillRatio64 1%N b64_half b64_half s_half_two ∧
  (∃ ds, filters s_half_two !! 0%nat = Some (mkBF 1%N b64_half [x1]) ∧
         built_with 1%N b64_half ds (mkBF 1%N b64_half [x1])) ∧
  (∃ bf ds, filters s_half_two !! 1%nat = Some bf ∧
            built_with 1%N b64_quarter ds bf) ∧
  (∃ s', addFilter s_half_two = Some (tt, s') ∧
     filters s' = filters s_half_two ++
       [NewPartitionedBloomFilter 1%N
          (S754_finite false 4503599627370496 (-55))]) ∧
  b64_to_R (target_rate b64_half b64_half 1) =
    (b64_to_R b64_half * b64_to_R (target_rate b64_half b64_half 0))%R ∧
  (b64_to_R (target_rate b64_half b64_half 1) <
   b64_to_R (target_rate b64_half b64_half 0))%R.
Proof.
destruct (target_rate_of_each_filter fillRatio64 1%N b64_half b64_half
            s_half_two s_half_two_reachable) as (Hall & Hnext & Hzero & Hexact).
split; [apply s_half_two_reachable|].
split; [|split; [|split]].
- destruct (Hzero b64_one b64_Pow_zero eq_refl) as (bf & ds & Hbf & Hds).
  exists ds. split; [reflexivity|]. injection Hbf as <-. exact Hds.
- apply (Hall 1%nat). simpl. lia.
- exact Hnext.
- apply (Hexact b64_to_R 0%nat b64_half_rate_0 b64_half_rate_1);
    [apply b64_half_between | apply b64_half_between].
Defined.

End Binary64Runs.
